(** * CipherTalk: the native decrypt bridge and the LRU cache

    A shallow embedding of
    - [electron/workers/decryptWorker.js] (the execution worker and its
      progress throttle),
    - [electron/services/decryptService.ts] ([WeChatDecryptService] and
      [NativeDecryptService], the task dispatcher),
    - the [LRUCache] class,
    - the chat store ([useChatStore]),
    together with the properties of the specification that concern them.

    JavaScript strings are sequences of UTF-16 code units, numbers that
    hold C [int]s or millisecond clocks are integers, the [Map] of pending
    tasks is a finite map, and the [Map] inside the cache, whose iteration
    order matters, is an insertion-ordered association list. *)

From Stdlib Require Import QArith Qround.
From stdpp Require Import gmap strings list sorting fin_maps.

Local Open Scope Z_scope.

(* ===================================================================== *)
(** * Part I: the embedding                                               *)
(* ===================================================================== *)

(** ** JavaScript strings *)

(** A string is its sequence of UTF-16 code units. *)
Abbreviation jsstring := (list N).

Module Js.

(** An ASCII literal as a JavaScript string. *)
Definition lit (s : string) : jsstring :=
  (λ c, Ascii.N_of_ascii c) <$> String.list_ascii_of_string s.

(** Truthiness of a string: only the empty string is falsy. *)
Definition truthy (s : jsstring) : bool :=
  match s with [] => false | _ => true end.

(** [a || b] on strings. *)
Definition or_else (a b : jsstring) : jsstring :=
  if truthy a then a else b.

(** Truthiness of [string | null]. *)
Definition truthy_opt (o : option jsstring) : bool :=
  match o with None => false | Some s => truthy s end.

(** [String.prototype.substring(start, end)]: both indices are clamped to
    the length and swapped when [start > end]. *)
Definition substring (i j : nat) (s : jsstring) : jsstring :=
  let i' := Nat.min i (length s) in
  let j' := Nat.min j (length s) in
  let lo := Nat.min i' j' in
  let hi := Nat.max i' j' in
  take (hi - lo) (drop lo s).

(** Decimal rendering of an integer.  A template literal prints a number
    this way when it is a safe integer, as the [int] status of the library
    is; larger numbers are printed with rounded digits or an exponent. *)
Fixpoint digits (fuel : nat) (n : N) (acc : jsstring) : jsstring :=
  match fuel with
  | O => acc
  | S fuel' =>
      let acc' := (48 + n mod 10)%N :: acc in
      if (n <? 10)%N then acc' else digits fuel' (n / 10)%N acc'
  end.

Definition of_N (n : N) : jsstring := digits (S (N.to_nat (N.log2 n))) n [].

Definition of_Z (z : Z) : jsstring :=
  match z with
  | Z0 => of_N 0
  | Zpos p => of_N (Npos p)
  | Zneg p => 45%N :: of_N (Npos p)
  end.

(** [Number.isSafeInteger], on the integer that a number is. *)
Definition isSafeInteger (z : Z) : bool :=
  bool_decide (Z.abs z ≤ 2 ^ 53 - 1)%Z.

(** An [Error] object: what is thrown by the file system, by koffi and by
    the [Worker] constructor. *)
Record error := MkError { name : jsstring; message : jsstring }.

(** [String(err)], that is [Error.prototype.toString]. *)
Definition String (e : error) : jsstring :=
  match name e, message e with
  | [], m => m
  | n, [] => n
  | n, m => n ++ lit ": " ++ m
  end.

(** *** [Buffer.toString('utf8')]

    The decoder reads bytes and yields code units; every maximal invalid
    part becomes one U+FFFD, and the byte that ended it is read again. *)

Record pending := Pending {
  code_point : N;
  bytes_left : nat;
  lower : N;
  upper : N
}.

Definition utf16 (cp : N) : jsstring :=
  if (cp <? 65536)%N then [cp]
  else
    let c := (cp - 65536)%N in
    [(55296 + N.shiftr c 10)%N; (56320 + N.land c 1023)%N].

Definition replacement : N := 65533%N.

Definition in_range (lo hi b : N) : bool := ((lo <=? b) && (b <=? hi))%N.

(** A byte read when no sequence is open. *)
Definition lead (b : N) : jsstring * option pending :=
  if (b <=? 127)%N then ([b], None)
  else if in_range 194 223 b then
    ([], Some (Pending (N.land b 31) 1 128 191))
  else if in_range 224 239 b then
    ([], Some (Pending (N.land b 15) 2
                 (if (b =? 224)%N then 160 else 128)
                 (if (b =? 237)%N then 159 else 191))%N)
  else if in_range 240 244 b then
    ([], Some (Pending (N.land b 7) 3
                 (if (b =? 240)%N then 144 else 128)
                 (if (b =? 244)%N then 143 else 191))%N)
  else ([replacement], None).

Fixpoint decode (st : option pending) (bs : list N) : jsstring :=
  match bs with
  | [] => match st with None => [] | Some _ => [replacement] end
  | b :: bs' =>
      match st with
      | None => let '(out, st') := lead b in out ++ decode st' bs'
      | Some p =>
          if in_range (lower p) (upper p) b then
            let cp := N.lor (N.shiftl (code_point p) 6) (N.land b 63) in
            match bytes_left p with
            | S (S k) => decode (Some (Pending cp (S k) 128 191)) bs'
            | _ => utf16 cp ++ decode None bs'
            end
          else
            let '(out, st') := lead b in
            replacement :: out ++ decode st' bs'
      end
  end.

Definition toString_utf8 (buffer : list N) : jsstring := decode None buffer.

(** *** [s.replace(/\0+$/, '')]

    The leftmost position from which the rest of the string is a
    non-empty run of NULs is where the pattern matches. *)

Definition all_nul (s : jsstring) : bool := forallb (N.eqb 0) s.

Fixpoint replace_trailing_nul (s : jsstring) : jsstring :=
  match s with
  | [] => []
  | c :: r => if all_nul (c :: r) then [] else c :: replace_trailing_nul r
  end.

End Js.


(** ** The cross-thread protocol *)

(** The payloads exchanged between the service and its worker.  An [error]
    sent before any task was taken (a failed start) carries no [id]. *)
Inductive message :=
| Ready
| Decrypt (id inputPath outputPath hexKey : jsstring)
| Progress (id : jsstring) (current total : Z)
| Success (id : jsstring)
| Error (id : option jsstring) (error : jsstring).

Definition msg_id (m : message) : option jsstring :=
  match m with
  | Ready => None
  | Decrypt id _ _ _ | Progress id _ _ | Success id => Some id
  | Error id _ => id
  end.

(** ** decryptWorker.js *)

Module Worker.

(** One call of the progress callback by the native library: the value of
    [Date.now()] when it runs, and the two [int] arguments. *)
Record invocation := Invocation { now : Z; current : Z; total : Z }.

(** The body of the callback registered for request [id]; [lastUpdate] is
    the variable of the enclosing request that it reads and assigns.  The
    result is the new [lastUpdate] and what was posted. *)
Definition onProgress (id : jsstring) (lastUpdate : Z) (c : invocation)
  : Z * list message :=
  if (now c - lastUpdate >? 100) || (current c =? total c) || (current c =? 1)
  then (now c, [Progress id (current c) (total c)])
  else (lastUpdate, []).

(** The callback run over the calls the library makes during one decrypt:
    the final [lastUpdate] and, call by call, what was posted. *)
Fixpoint run_callbacks (id : jsstring) (lastUpdate : Z) (cs : list invocation)
  : Z * list (list message) :=
  match cs with
  | [] => (lastUpdate, [])
  | c :: cs' =>
      let '(lastUpdate', out) := onProgress id lastUpdate c in
      let '(final, outs) := run_callbacks id lastUpdate' cs' in
      (final, out :: outs)
  end.

(** The time of the latest call that posted something, [start] if none. *)
Fixpoint last_emission (start : Z) (cs : list invocation)
         (outs : list (list message)) : Z :=
  match cs, outs with
  | c :: cs', o :: outs' =>
      last_emission (match o with [] => start | _ => now c end) cs' outs'
  | _, _ => start
  end.

(** What lies outside the worker script: the file system, koffi and the
    native library.  A call that can throw returns [inr] of the error. *)
Record env := Env {
  dirname : jsstring → jsstring;
  existsSync : jsstring → bool;
  mkdirSync : jsstring → option Js.error;
  (** [koffi.register] fails when no callback slot is left *)
  register_fails : option Js.error;
  (** [Wcdb_DecryptDatabaseWithProgress]: the calls it makes to the
      callback, then its status code or an exception *)
  Wcdb_DecryptDatabaseWithProgress :
    jsstring → jsstring → jsstring → list invocation * (Z + Js.error);
  (** [Wcdb_GetLastErrorMsg]: the bytes it writes at the start of the
      buffer, or an exception *)
  Wcdb_GetLastErrorMsg : list N + Js.error
}.

(** The worker's own state: the callbacks registered with koffi and not
    yet unregistered, the next callback handle, and everything posted to
    the parent port so far (oldest first). *)
Record state := State {
  registered : gset nat;
  next_callback : nat;
  posted : list message
}.

(** Statements of the handler: they read and write the state and either
    complete with a value or throw. *)
Definition M (A : Type) : Type := state → (A + Js.error) * state.

Definition ret {A} (a : A) : M A := λ s, (inl a, s).
Definition throw {A} (e : Js.error) : M A := λ s, (inr e, s).
Definition bind {A B} (m : M A) (k : A → M B) : M B :=
  λ s, match m s with
       | (inl a, s') => k a s'
       | (inr e, s') => (inr e, s')
       end.
Definition try_catch {A} (body : M A) (handler : Js.error → M A) : M A :=
  λ s, match body s with
       | (inl a, s') => (inl a, s')
       | (inr e, s') => handler e s'
       end.

#[export] Instance M_ret : MRet M := @ret.
#[export] Instance M_bind : MBind M := λ A B k m, bind m k.

Definition postMessage (m : message) : M unit :=
  λ s, (inl tt, State (registered s) (next_callback s) (posted s ++ [m])).

Definition postMessages (ms : list message) : M unit :=
  λ s, (inl tt, State (registered s) (next_callback s) (posted s ++ ms)).

Definition lift {A} (r : A + Js.error) : M A :=
  match r with inl a => ret a | inr e => throw e end.

Definition lift_unit (r : option Js.error) : M unit :=
  match r with None => ret tt | Some e => throw e end.

(** [koffi.register]: a fresh handle, now live. *)
Definition koffi_register (E : env) : M nat :=
  match register_fails E with
  | Some e => throw e
  | None =>
      λ s, (inl (next_callback s),
            State ({[next_callback s]} ∪ registered s)
                  (S (next_callback s)) (posted s))
  end.

(** [koffi.unregister]. *)
Definition koffi_unregister (cb : nat) : M unit :=
  λ s, (inl tt, State (registered s ∖ {[cb]}) (next_callback s) (posted s)).

(** [Buffer.alloc(512)] after the library wrote [written] into it. *)
Definition fill_buffer (written : list N) : list N :=
  take 512 (written ++ replicate 512 0%N).

(** The blocking native call: every time the library calls back, the
    registered closure runs and may post. *)
Definition native_decrypt (E : env) (id inputPath outputPath hexKey : jsstring)
  : M Z :=
  let '(calls, result) :=
    Wcdb_DecryptDatabaseWithProgress E inputPath outputPath hexKey in
  postMessages (concat (run_callbacks id 0 calls).2) ;;
  lift result.

(** The body of the [try] block for one [decrypt] message. *)
Definition decrypt_body (E : env) (id inputPath outputPath hexKey : jsstring)
  : M unit :=
  let outputDir := dirname E outputPath in
  (if negb (existsSync E outputDir)
   then lift_unit (mkdirSync E outputDir) else ret tt) ;;
  callback ← koffi_register E ;
  result ← native_decrypt E id inputPath outputPath hexKey ;
  koffi_unregister callback ;;
  if result =? 0 then postMessage (Success id)
  else
    written ← lift (Wcdb_GetLastErrorMsg E) ;
    let errorMsg :=
      Js.replace_trailing_nul (Js.toString_utf8 (fill_buffer written)) in
    postMessage
      (Error (Some id)
         (Js.or_else errorMsg (Js.lit "ErrorCode: " ++ Js.of_Z result))).

(** What the directory step throws, if it does. *)
Definition mkdir_error (E : env) (outputPath : jsstring) : option Js.error :=
  if existsSync E (dirname E outputPath) then None
  else mkdirSync E (dirname E outputPath).

(** The listener installed with [parentPort.on('message', ...)]. *)
Definition on_message (E : env) (m : message) : M unit :=
  match m with
  | Decrypt id inputPath outputPath hexKey =>
      try_catch (decrypt_body E id inputPath outputPath hexKey)
        (λ err, postMessage (Error (Some id) (Js.String err)))
  | _ => ret tt
  end.

Definition initial : state := State ∅ 0 [].

End Worker.

(** ** decryptService.ts *)

(** [WeChatDecryptService.validateKey]. *)
Definition validateKey (dbPath hexKey : jsstring) : bool := true.

Module Dispatcher.

(** What a decrypt promise resolves to. *)
Record result := Result { success : bool; error : option jsstring }.

(** [DecryptTask]: [resolve] names the promise it settles, [onProgress]
    the caller's progress function, when one was given. *)
Record DecryptTask := Task { resolve : nat; onProgress : option nat }.

(** '未找到 wcdb_decrypt.dll' *)
Definition dll_not_found : jsstring :=
  [26410; 25214; 21040]%N ++ Js.lit " wcdb_decrypt.dll".
(** '未找到 decryptWorker.js' *)
Definition worker_not_found : jsstring :=
  [26410; 25214; 21040]%N ++ Js.lit " decryptWorker.js".
(** '初始化失败: ' *)
Definition init_failed : jsstring :=
  [21021; 22987; 21270; 22833; 36133]%N ++ Js.lit ": ".
(** 'Worker 未启动' *)
Definition worker_not_started : jsstring :=
  Js.lit "Worker " ++ [26410; 21551; 21160]%N.

(** The fields of [NativeDecryptService], and around them what its
    methods act on: the promises settled so far, the calls made to the
    callers' progress functions, the messages posted to workers, the
    number of worker threads constructed (the next worker's handle) and
    the number of promises created. *)
Record state := State {
  worker : option nat;
  dllPath : option jsstring;
  initialized : bool;
  initError : option jsstring;
  tasks : gmap jsstring DecryptTask;
  promises : gmap nat result;
  progress_calls : list (nat * Z * Z);
  sent : list (nat * message);
  spawned : nat;
  next_promise : nat
}.

(** The application around the service: the candidate paths that
    [findDllPath] and [findWorkerPath] assemble, the file system, and
    whether the [Worker] constructor throws. *)
Record env := Env {
  dll_candidates : list jsstring;
  worker_candidates : list jsstring;
  existsSync : jsstring → bool;
  new_Worker : jsstring → option Js.error
}.

(** [x || null] for [x : string | undefined]. *)
Definition or_null (x : option jsstring) : option jsstring :=
  match x with
  | Some p => if Js.truthy p then Some p else None
  | None => None
  end.

Definition findDllPath (E : env) : option jsstring :=
  or_null (List.find (existsSync E) (dll_candidates E)).

Definition findWorkerPath (E : env) : option jsstring :=
  or_null (List.find (existsSync E) (worker_candidates E)).

Definition set_initError (e : jsstring) (s : state) : state :=
  State (worker s) (dllPath s) (initialized s) (Some e) (tasks s)
    (promises s) (progress_calls s) (sent s) (spawned s) (next_promise s).

Definition set_dllPath (d : option jsstring) (s : state) : state :=
  State (worker s) d (initialized s) (initError s) (tasks s)
    (promises s) (progress_calls s) (sent s) (spawned s) (next_promise s).

Definition set_tasks (t : gmap jsstring DecryptTask) (s : state) : state :=
  State (worker s) (dllPath s) (initialized s) (initError s) t
    (promises s) (progress_calls s) (sent s) (spawned s) (next_promise s).

(** [init]. *)
Definition init (E : env) (s : state) : state :=
  if initialized s then s
  else
    let s1 := set_dllPath (findDllPath E) s in
    match dllPath s1 with
    | None => set_initError dll_not_found s1
    | Some _ =>
        match findWorkerPath E with
        | None => set_initError worker_not_found s1
        | Some workerScript =>
            match new_Worker E workerScript with
            | Some e => set_initError (init_failed ++ Js.String e) s1
            | None =>
                State (Some (spawned s1)) (dllPath s1) true (initError s1)
                  (tasks s1) (promises s1) (progress_calls s1) (sent s1)
                  (S (spawned s1)) (next_promise s1)
            end
        end
    end.

(** The field initialisers of the class. *)
Definition blank : state := State None None false None ∅ ∅ [] [] 0 0.

(** [new NativeDecryptService()]. *)
Definition construct (E : env) : state := init E blank.

(** Calling a promise's [resolve]: only the first call settles it. *)
Definition settle (p : nat) (r : result) (s : state) : state :=
  State (worker s) (dllPath s) (initialized s) (initError s) (tasks s)
    (match promises s !! p with
     | None => <[p := r]> (promises s)
     | Some _ => promises s
     end)
    (progress_calls s) (sent s) (spawned s) (next_promise s).

Definition call_progress (f : nat) (current total : Z) (s : state) : state :=
  State (worker s) (dllPath s) (initialized s) (initError s) (tasks s)
    (promises s) (progress_calls s ++ [(f, current, total)]) (sent s)
    (spawned s) (next_promise s).

(** [handleWorkerMessage]. *)
Definition handleWorkerMessage (msg : message) (s : state) : state :=
  match msg with
  | Ready => s
  | _ =>
      match msg_id msg ≫= (λ id, tasks s !! id) with
      | None => s
      | Some task =>
          match msg with
          | Success id =>
              set_tasks (delete id (tasks s))
                (settle (resolve task) (Result true None) s)
          | Error (Some id) e =>
              set_tasks (delete id (tasks s))
                (settle (resolve task) (Result false (Some e)) s)
          | Progress _ current total =>
              match onProgress task with
              | Some f => call_progress f current total s
              | None => s
              end
          | _ => s
          end
      end
  end.

(** The listener of the worker's ['error'] event. *)
Definition on_error (err : Js.error) (s : state) : state :=
  set_initError (Js.lit "Worker error: " ++ Js.message err) s.

(** The listener of the worker's ['exit'] event. *)
Definition on_exit (code : Z) (s : state) : state :=
  if code =? 0 then s
  else
    State None (dllPath s) false (initError s) (tasks s)
      (promises s) (progress_calls s) (sent s) (spawned s) (next_promise s).

(** [isAvailable]. *)
Definition isAvailable (s : state) : bool :=
  initialized s && bool_decide (worker s ≠ None).

(** [generateId], on the text [Math.random().toString(36)] drawn for it. *)
Definition generateId (random36 : jsstring) : jsstring :=
  Js.substring 2 15 random36.

(** The arguments of one call of [decryptDatabaseAsync], with the random
    text that [generateId] draws if it is reached. *)
Record call := Call {
  inputPath : jsstring;
  outputPath : jsstring;
  hexKey : jsstring;
  progress : option nat;
  random36 : jsstring
}.

Definition new_promise (s : state) : nat * state :=
  (next_promise s,
   State (worker s) (dllPath s) (initialized s) (initError s) (tasks s)
     (promises s) (progress_calls s) (sent s) (spawned s)
     (S (next_promise s))).

Definition postMessage (w : nat) (m : message) (s : state) : state :=
  State (worker s) (dllPath s) (initialized s) (initError s) (tasks s)
    (promises s) (progress_calls s) (sent s ++ [(w, m)]) (spawned s)
    (next_promise s).

(** The block [if (!this.worker) { ... this.init() ... }]. *)
Definition restart_if_down (E : env) (s : state) : state :=
  match worker s with
  | Some _ => s
  | None =>
      if negb (initialized s) && negb (Js.truthy_opt (initError s))
      then init E s else s
  end.

(** [decryptDatabaseAsync]: the promise it returns and the state it
    leaves. *)
Definition decryptDatabaseAsync (E : env) (c : call) (s : state)
  : nat * state :=
  let '(p, s) := new_promise s in
  let s := restart_if_down E s in
  match worker s with
  | None =>
      (p, settle p
            (Result false
               (Some (Js.or_else (default [] (initError s))
                        worker_not_started))) s)
  | Some w =>
      let id := generateId (random36 c) in
      let s := set_tasks (<[id := Task p (progress c)]> (tasks s)) s in
      (p, postMessage w (Decrypt id (inputPath c) (outputPath c) (hexKey c)) s)
  end.

(** What can happen to the service after it was constructed. *)
Inductive action :=
| Submit (c : call)
| WorkerMessage (m : message)
| WorkerError (err : Js.error)
| WorkerExit (code : Z).

Definition step (E : env) (a : action) (s : state) : state :=
  match a with
  | Submit c => (decryptDatabaseAsync E c s).2
  | WorkerMessage m => handleWorkerMessage m s
  | WorkerError err => on_error err s
  | WorkerExit code => on_exit code s
  end.

Definition run (E : env) (acts : list action) (s : state) : state :=
  foldl (λ s a, step E a s) s acts.

(** Over a sequence of calls of [decryptDatabaseAsync]: the ids that were
    generated and inserted while the table still held them. *)
Fixpoint reused_ids (E : env) (cs : list call) (s : state) : list jsstring :=
  match cs with
  | [] => []
  | c :: cs' =>
      let s1 := restart_if_down E (new_promise s).2 in
      let id := generateId (random36 c) in
      (match worker s1, tasks s1 !! id with
       | Some _, Some _ => [id]
       | _, _ => []
       end) ++ reused_ids E cs' (decryptDatabaseAsync E c s).2
  end.

(** The states the service can be in: constructed, then any actions,
    each in the installation as it is at that moment. *)
Inductive reachable : state → Prop :=
| reach_construct (E : env) : reachable (construct E)
| reach_step (E : env) (a : action) (s : state) :
    reachable s → reachable (step E a s).

(** Promises are numbered as they are created: every promise settled or
    held by a pending task was created before, a pending task's promise
    is not settled, and no two pending tasks hold the same promise. *)
Definition consistent (s : state) : Prop :=
  (∀ id t, tasks s !! id = Some t →
     (resolve t < next_promise s)%nat ∧ promises s !! resolve t = None)
  ∧ (∀ p, is_Some (promises s !! p) → (p < next_promise s)%nat)
  ∧ (∀ id1 id2 t1 t2,
       tasks s !! id1 = Some t1 → tasks s !! id2 = Some t2 →
       resolve t1 = resolve t2 → id1 = id2).

End Dispatcher.

(** ** The LRU cache *)

Module Lru.
Section Cache.

(** The type parameters of [LRUCache<K, V>].  Keys are compared as [Map]
    compares them; [is_undefined] tells whether a key is the value
    [undefined], which [K] may or may not contain. *)
Context {K V : Type} `{EqDecision K}.
Variable is_undefined : K → bool.

(** *** [Map<K, V>], in insertion order *)

Definition map_has (k : K) (m : list (K * V)) : bool :=
  bool_decide (k ∈ m.*1).

Fixpoint map_get (k : K) (m : list (K * V)) : option V :=
  match m with
  | [] => None
  | (k', v) :: m' => if decide (k' = k) then Some v else map_get k m'
  end.

Fixpoint map_delete (k : K) (m : list (K * V)) : list (K * V) :=
  match m with
  | [] => []
  | (k', v) :: m' =>
      if decide (k' = k) then map_delete k m' else (k', v) :: map_delete k m'
  end.

(** [Map.set]: a present key keeps its place, a new one goes last. *)
Fixpoint map_set (k : K) (v : V) (m : list (K * V)) : list (K * V) :=
  match m with
  | [] => [(k, v)]
  | (k', v') :: m' =>
      if decide (k' = k) then (k, v) :: m' else (k', v') :: map_set k v m'
  end.

(** [m.keys().next().value]: [None] stands for the [undefined] of an
    exhausted iterator. *)
Definition first_key (m : list (K * V)) : option K := head m.*1.

(** *** The class *)

(** [capacity] is a [number].  The finite values are modelled: a rational,
    which may be zero, negative or not an integer.  [NaN] and the
    infinities, for which [size >= capacity] is never true, are left
    out. *)
Record LRUCache := Cache { capacity : Q; cache : list (K * V) }.

Definition new (capacity : Q) : LRUCache := Cache capacity [].

Definition size (c : LRUCache) : nat := length (cache c).

Definition keys (c : LRUCache) : list K := (cache c).*1.

Definition get (key : K) (c : LRUCache) : option V * LRUCache :=
  if negb (map_has key (cache c)) then (None, c)
  else
    match map_get key (cache c) with
    | None => (None, c)
    | Some value =>
        (Some value,
         Cache (capacity c) (map_set key value (map_delete key (cache c))))
    end.

Definition set (key : K) (value : V) (c : LRUCache) : LRUCache :=
  let m :=
    if map_has key (cache c) then map_delete key (cache c)
    else if Qle_bool (capacity c) (inject_Z (Z.of_nat (length (cache c))))
    then
      match first_key (cache c) with
      | Some firstKey =>
          if negb (is_undefined firstKey)
          then map_delete firstKey (cache c) else cache c
      | None => cache c
      end
    else cache c in
  Cache (capacity c) (map_set key value m).

Definition has (key : K) (c : LRUCache) : bool := map_has key (cache c).

Definition clear (c : LRUCache) : LRUCache := Cache (capacity c) [].

(** *** Sequences of operations *)

Inductive op :=
| Get (key : K)
| Set_ (key : K) (value : V)
| Clear.

Definition apply (o : op) (c : LRUCache) : LRUCache :=
  match o with
  | Get key => (get key c).2
  | Set_ key value => set key value c
  | Clear => clear c
  end.

Definition run (ops : list op) (c : LRUCache) : LRUCache :=
  foldl (λ c o, apply o c) c ops.

(** Whether operation [o], applied to cache [c], inserts or refreshes key
    [k]: a [set] of [k], or a [get] of [k] that finds it. *)
Definition refreshes (o : op) (c : LRUCache) (k : K) : bool :=
  match o with
  | Get key => bool_decide (key = k) && map_has key (cache c)
  | Set_ key _ => bool_decide (key = k)
  | Clear => false
  end.

(** The position, counted from 1, of the last operation of [ops], run from
    cache [c], that inserted or refreshed [k]; 0 when there is none. *)
Fixpoint last_use (ops : list op) (c : LRUCache) (k : K) : nat :=
  match ops with
  | [] => O
  | o :: ops' =>
      match last_use ops' (apply o c) k with
      | O => if refreshes o c k then 1%nat else O
      | S n => S (S n)
      end
  end.

(** Over [ops] run from [c], key [a] was last used before key [b]. *)
Definition used_before (ops : list op) (c : LRUCache) (a b : K) : Prop :=
  (last_use ops c a < last_use ops c b)%nat.

(** Over [ops] run from [c], key [k] was inserted or refreshed. *)
Definition used (ops : list op) (c : LRUCache) (k : K) : Prop :=
  (0 < last_use ops c k)%nat.

(** No [set] of the sequence uses [undefined] as its key. *)
Definition defined_keys (ops : list op) : Prop :=
  ∀ key value, Set_ key value ∈ ops → is_undefined key = false.

End Cache.
End Lru.

(** ** Concrete inputs used below *)

Module Examples.

Definition id : jsstring := Js.lit "k3x9".

Definition request : message :=
  Decrypt id (Js.lit "C:/wx/MSG0.db") (Js.lit "C:/out/MSG0.db")
    (Js.lit "a1b2c3").

(** Three calls of the callback, 100 ms and then 1 ms apart. *)
Definition calls : list Worker.invocation :=
  [Worker.Invocation 1700000000000 1 10;
   Worker.Invocation 1700000000100 2 10;
   Worker.Invocation 1700000000101 3 10].

(** A worker whose output directory is missing: [mkdirSync] answers
    [mkdir], the native call makes [calls] and ends as [outcome], and the
    library's last error text is [written]. *)
Definition worker_env (mkdir : option Js.error) (outcome : Z + Js.error)
    (written : list N) : Worker.env :=
  Worker.Env (λ _, Js.lit "C:/out") (λ _, false) (λ _, mkdir) None
    (λ _ _ _, (calls, outcome)) (inl written).

Definition mkdir_denied : Js.error :=
  Js.MkError (Js.lit "Error") (Js.lit "EACCES: permission denied, mkdir").

Definition native_fault : Js.error :=
  Js.MkError (Js.lit "Error") (Js.lit "native call failed").

Definition env_mkdir_fails : Worker.env :=
  worker_env (Some mkdir_denied) (inl 0) [].

(** A worker in which the call into the library throws before the library
    called back.  koffi does not throw for the string arguments of a
    request; this stands for a fault of the binding itself. *)
Definition env_native_throws : Worker.env :=
  Worker.Env (λ _, Js.lit "C:/out") (λ _, false) (λ _, None) None
    (λ _ _ _, ([], inr native_fault)) (inl []).


(** Scenario C: status 3 and the text "bad key". *)
Definition env_bad_key : Worker.env :=
  worker_env None (inl 3) (Js.lit "bad key").

(** An installation where the library and the worker script are found
    and the worker thread starts. *)
Definition app_env : Dispatcher.env :=
  Dispatcher.Env [Js.lit "C:/app/resources/wcdb_decrypt.dll"]
    [Js.lit "C:/app/electron/workers/decryptWorker.js"]
    (λ _, true) (λ _, None).

(** A call for which [Math.random().toString(36)] is "0.k3x9". *)
Definition a_call : Dispatcher.call :=
  Dispatcher.Call (Js.lit "C:/wx/MSG0.db") (Js.lit "C:/out/MSG0.db")
    (Js.lit "a1b2c3") None (Js.lit "0.k3x9").

(** A second call, for which the text drawn is "0.p7q". *)
Definition another_call : Dispatcher.call :=
  Dispatcher.Call (Js.lit "C:/wx/MSG1.db") (Js.lit "C:/out/MSG1.db")
    (Js.lit "a1b2c3") (Some 0%nat) (Js.lit "0.p7q").

(** The service after it was constructed and [a_call] was made. *)
Definition one_pending : Dispatcher.state :=
  Dispatcher.step app_env (Dispatcher.Submit a_call)
    (Dispatcher.construct app_env).

(** Caches keyed by numbers ([undefined] is not among them) and by
    [number | undefined]. *)
Definition number_key (k : nat) : bool := false.

Definition maybe_number_key (k : option nat) : bool :=
  match k with None => true | Some _ => false end.

Definition three_sets : list (@Lru.op nat nat) :=
  [Lru.Set_ 1%nat 10%nat; Lru.Set_ 2%nat 20%nat; Lru.Get 1%nat].

Definition worker_fault : Js.error :=
  Js.MkError (Js.lit "Error") (Js.lit "koffi: cannot load library").

End Examples.

(** ** The specification's wording, where it is compared with the code *)

Module Claimed.

(** The throttle as the specification words it: a call posts exactly when
    it is the first step, the last step, or at least 100 ms after the
    latest call that posted. *)
Definition throttle (id : jsstring) (cs : list Worker.invocation) : Prop :=
  ∀ i c, cs !! i = Some c →
    let outs := (Worker.run_callbacks id 0 cs).2 in
    let last := Worker.last_emission 0 (take i cs) (take i outs) in
    outs !! i =
      Some (if bool_decide (Worker.current c = 1 ∨
                            Worker.current c = Worker.total c ∨
                            100 ≤ Worker.now c - last)
            then [Progress id (Worker.current c) (Worker.total c)]
            else []).

(** [isAvailable] as the specification words it: false in every state
    reached without handling the worker's [ready] message. *)
Definition available_only_after_ready
    (E : Dispatcher.env) (acts : list Dispatcher.action) : Prop :=
  Dispatcher.WorkerMessage Ready ∉ acts →
  Dispatcher.isAvailable (Dispatcher.run E acts (Dispatcher.construct E))
    = false.

(** The restart as the specification words it: after an exit with a
    non-zero code, the next call constructs a new worker. *)
Definition restarts_after_exit (E : Dispatcher.env) (s : Dispatcher.state)
    (code : Z) (c : Dispatcher.call) : Prop :=
  code ≠ 0 →
  let s' := (Dispatcher.decryptDatabaseAsync E c
               (Dispatcher.on_exit code s)).2 in
  Dispatcher.worker s' = Some (Dispatcher.spawned s)
  ∧ Dispatcher.spawned s' = S (Dispatcher.spawned s).

(** Fresh ids as the specification words them: no call inserts an id
    that the table still holds. *)
Definition never_reuses_pending_id (E : Dispatcher.env)
    (cs : list Dispatcher.call) (s : Dispatcher.state) : Prop :=
  Dispatcher.reused_ids E cs s = [].

(** The bound of the cache as the specification words it: with a
    positive capacity, the size never exceeds the capacity. *)
Definition size_within_capacity {K V : Type} `{EqDecision K}
    (is_undefined : K → bool) (capacity : Q) (ops : list (@Lru.op K V))
  : Prop :=
  (0 < capacity)%Q →
  (inject_Z (Z.of_nat (Lru.size (Lru.run is_undefined ops (Lru.new capacity))))
     <= capacity)%Q.

End Claimed.

(** ** The worker's start-up *)

Module Startup.

(** What the top of the worker script meets: [workerData.dllPath], the file
    system, and whether [koffi.load] or one of the bindings throws. *)
Record env := Env {
  dllPath : option jsstring;
  existsSync : jsstring → bool;
  load : option Js.error
}.

(** How the script ends: [process.exit(code)], or it returns without a
    message listener, or it returns listening. *)
Inductive outcome :=
| Exited (code : Z)
| Idle
| Listening.

(** ['DLL path not found: ' + dllPath]. *)
Definition not_found (p : option jsstring) : jsstring :=
  Js.lit "DLL path not found: " ++
  match p with Some s => s | None => Js.lit "null" end.

(** The script from its first line to its last: what it posts and how it
    ends. *)
Definition start (E : env) : list message * outcome :=
  match dllPath E with
  | None => ([Error None (not_found None)], Exited 1)
  | Some p =>
      if negb (Js.truthy p) || negb (existsSync E p)
      then ([Error None (not_found (Some p))], Exited 1)
      else
        match load E with
        | Some err => ([Error None (Js.String err)], Idle)
        | None => ([Ready], Listening)
        end
  end.

End Startup.

(** ** Requests in sequence *)

Module Requests.

(** The progress message of one call of the callback. *)
Definition progress_of (id : jsstring) (c : Worker.invocation) : message :=
  Progress id (Worker.current c) (Worker.total c).

(** The worker takes the messages one after the other, each in the
    environment of its moment. *)
Definition handle (s : Worker.state) (r : Worker.env * message) : Worker.state :=
  (Worker.on_message r.1 r.2 s).2.

Definition run (rs : list (Worker.env * message)) (s : Worker.state)
  : Worker.state :=
  foldl handle s rs.

(** A decrypt request during which the native call throws, after the
    callback was registered. *)
Definition native_throws (r : Worker.env * message) : bool :=
  match r.2 with
  | Decrypt _ inputPath outputPath hexKey =>
      match Worker.mkdir_error r.1 outputPath, Worker.register_fails r.1,
            (Worker.Wcdb_DecryptDatabaseWithProgress r.1
               inputPath outputPath hexKey).2 with
      | None, None, inr _ => true
      | _, _, _ => false
      end
  | _ => false
  end.

(** A decrypt request that runs to the success message: no step throws
    and the status is 0. *)
Definition succeeds (E : Worker.env) (inputPath outputPath hexKey : jsstring)
  : Prop :=
  Worker.mkdir_error E outputPath = None
  ∧ Worker.register_fails E = None
  ∧ (Worker.Wcdb_DecryptDatabaseWithProgress E inputPath outputPath hexKey).2
      = inl 0.

(** Every live callback handle was handed out before. *)
Definition handles_in_range (s : Worker.state) : Prop :=
  ∀ h, h ∈ Worker.registered s → (h < Worker.next_callback s)%nat.

End Requests.

(** ** The service as its callers use it *)

Module Service.

(** '原生解密服务不可用：DLL 加载失败或 Worker 未启动' *)
Definition unavailable : jsstring :=
  [21407; 29983; 35299; 23494; 26381; 21153; 19981; 21487; 29992; 65306]%N
  ++ Js.lit "DLL " ++ [21152; 36733; 22833; 36133; 25110]%N
  ++ Js.lit " Worker " ++ [26410; 21551; 21160]%N.

(** What [decryptDatabase] makes of the result it awaited. *)
Definition relay (r : Dispatcher.result) : Dispatcher.result :=
  if Dispatcher.success r then Dispatcher.Result true None
  else Dispatcher.Result false (Dispatcher.error r).

(** [WeChatDecryptService.decryptDatabase]: either its result at once, or
    the promise of [decryptDatabaseAsync] that it awaits and whose result
    it passes through [relay]. *)
Definition decryptDatabase (E : Dispatcher.env) (c : Dispatcher.call)
    (s : Dispatcher.state) : (Dispatcher.result + nat) * Dispatcher.state :=
  if negb (Dispatcher.isAvailable s)
  then (inl (Dispatcher.Result false (Some unavailable)), s)
  else
    let '(p, s') := Dispatcher.decryptDatabaseAsync E c s in
    (inr p, s').

(** What happens to a service that is used through [decryptDatabase]. *)
Inductive action :=
| Call (E : Dispatcher.env) (c : Dispatcher.call)
| WorkerMessage (m : message)
| WorkerError (err : Js.error)
| WorkerExit (code : Z).

Definition step (s : Dispatcher.state) (a : action) : Dispatcher.state :=
  match a with
  | Call E c => (decryptDatabase E c s).2
  | WorkerMessage m => Dispatcher.handleWorkerMessage m s
  | WorkerError err => Dispatcher.on_error err s
  | WorkerExit code => Dispatcher.on_exit code s
  end.

Definition run (acts : list action) (s : Dispatcher.state) : Dispatcher.state :=
  foldl step s acts.

(** The dispatcher's actions, each in the installation of its moment. *)
Definition run_in (steps : list (Dispatcher.env * Dispatcher.action))
    (s : Dispatcher.state) : Dispatcher.state :=
  foldl (λ s r, Dispatcher.step r.1 r.2 s) s steps.

(** The messages of the worker, handled in the order they were posted. *)
Definition deliver (ms : list message) (s : Dispatcher.state)
  : Dispatcher.state :=
  foldl (λ s m, Dispatcher.handleWorkerMessage m s) s ms.

(** What the service has seen of a worker's start-up: the messages it
    posted and, when the script ended with [process.exit], the exit. *)
Definition after_startup (r : list message * Startup.outcome)
    (s : Dispatcher.state) : Dispatcher.state :=
  match r.2 with
  | Startup.Exited code => Dispatcher.on_exit code (deliver r.1 s)
  | _ => deliver r.1 s
  end.

(** The calls that progress messages make to a task's progress function. *)
Definition sink_calls (f : option nat) (ms : list message)
  : list (nat * Z * Z) :=
  match f with
  | None => []
  | Some f =>
      omap (λ m, match m with
                 | Progress _ current total => Some (f, current, total)
                 | _ => None
                 end) ms
  end.

End Service.

(** ** The chat store *)

Module Store.
Section Store.

(** The interfaces [ChatSession], [Message] and [Contact], with the fields
    that the store reads.  Four fields of a message are of type [number];
    [toString] is the text that a template literal gives a number: the
    shortest decimal digits that read back as the same float, so plain
    decimal for a safe integer and rounded digits or an exponent for
    others. *)
Context {ChatSession Message Contact number : Type}.
Variable toString : number → jsstring.
Variables serverId localId createTime sortSeq : Message → number.
Variable username : Contact → jsstring.

Record ChatState := State {
  isConnected : bool;
  isConnecting : bool;
  connectionError : option jsstring;
  sessions : list ChatSession;
  filteredSessions : list ChatSession;
  currentSessionId : option jsstring;
  isLoadingSessions : bool;
  messages : list Message;
  isLoadingMessages : bool;
  isLoadingMore : bool;
  hasMoreMessages : bool;
  contacts : list (jsstring * Contact);
  searchKeyword : jsstring;
  syncVersion : Z
}.

(** The state the store is created with. *)
Definition initial : ChatState :=
  State false false None [] [] None false [] false false true [] [] 0.

(** [set({ messages: ... })]: one field replaced, the others kept. *)
Definition with_messages (ms : list Message) (s : ChatState) : ChatState :=
  State (isConnected s) (isConnecting s) (connectionError s) (sessions s)
    (filteredSessions s) (currentSessionId s) (isLoadingSessions s) ms
    (isLoadingMessages s) (isLoadingMore s) (hasMoreMessages s) (contacts s)
    (searchKeyword s) (syncVersion s).

Definition with_contacts (cs : list (jsstring * Contact)) (s : ChatState)
  : ChatState :=
  State (isConnected s) (isConnecting s) (connectionError s) (sessions s)
    (filteredSessions s) (currentSessionId s) (isLoadingSessions s)
    (messages s) (isLoadingMessages s) (isLoadingMore s) (hasMoreMessages s)
    cs (searchKeyword s) (syncVersion s).

Definition setConnected (connected : bool) (s : ChatState) : ChatState :=
  State connected (isConnecting s) (connectionError s) (sessions s)
    (filteredSessions s) (currentSessionId s) (isLoadingSessions s)
    (messages s) (isLoadingMessages s) (isLoadingMore s) (hasMoreMessages s)
    (contacts s) (searchKeyword s) (syncVersion s).

Definition setConnecting (connecting : bool) (s : ChatState) : ChatState :=
  State (isConnected s) connecting (connectionError s) (sessions s)
    (filteredSessions s) (currentSessionId s) (isLoadingSessions s)
    (messages s) (isLoadingMessages s) (isLoadingMore s) (hasMoreMessages s)
    (contacts s) (searchKeyword s) (syncVersion s).

Definition setConnectionError (error : option jsstring) (s : ChatState)
  : ChatState :=
  State (isConnected s) (isConnecting s) error (sessions s)
    (filteredSessions s) (currentSessionId s) (isLoadingSessions s)
    (messages s) (isLoadingMessages s) (isLoadingMore s) (hasMoreMessages s)
    (contacts s) (searchKeyword s) (syncVersion s).

(** [setSessions]: the argument is the new list or a function of the old
    one; the filtered list is set to the same list. *)
Definition setSessions
    (sessions' : list ChatSession + (list ChatSession → list ChatSession))
    (s : ChatState) : ChatState :=
  let newSessions :=
    match sessions' with
    | inr update => update (sessions s)
    | inl l => l
    end in
  State (isConnected s) (isConnecting s) (connectionError s) newSessions
    newSessions (currentSessionId s) (isLoadingSessions s)
    (messages s) (isLoadingMessages s) (isLoadingMore s) (hasMoreMessages s)
    (contacts s) (searchKeyword s) (syncVersion s).

Definition setFilteredSessions (l : list ChatSession) (s : ChatState)
  : ChatState :=
  State (isConnected s) (isConnecting s) (connectionError s) (sessions s)
    l (currentSessionId s) (isLoadingSessions s)
    (messages s) (isLoadingMessages s) (isLoadingMore s) (hasMoreMessages s)
    (contacts s) (searchKeyword s) (syncVersion s).

Definition setCurrentSession (sessionId : option jsstring) (s : ChatState)
  : ChatState :=
  State (isConnected s) (isConnecting s) (connectionError s) (sessions s)
    (filteredSessions s) sessionId (isLoadingSessions s)
    [] (isLoadingMessages s) (isLoadingMore s) true
    (contacts s) (searchKeyword s) (syncVersion s).

Definition setLoadingSessions (loading : bool) (s : ChatState) : ChatState :=
  State (isConnected s) (isConnecting s) (connectionError s) (sessions s)
    (filteredSessions s) (currentSessionId s) loading
    (messages s) (isLoadingMessages s) (isLoadingMore s) (hasMoreMessages s)
    (contacts s) (searchKeyword s) (syncVersion s).

Definition setMessages
    (messages' : list Message + (list Message → list Message))
    (s : ChatState) : ChatState :=
  with_messages
    (match messages' with
     | inr update => update (messages s)
     | inl l => l
     end) s.

(** [`${m.serverId}-${m.localId}-${m.createTime}-${m.sortSeq}`]. *)
Definition message_key (m : Message) : jsstring :=
  toString (serverId m) ++ Js.lit "-" ++ toString (localId m) ++ Js.lit "-"
  ++ toString (createTime m) ++ Js.lit "-" ++ toString (sortSeq m).

(** The messages of a batch whose key no message of the store has. *)
Definition uniqueNewMessages (newMessages : list Message) (s : ChatState)
  : list Message :=
  let existingKeys := message_key <$> messages s in
  filter (λ msg, message_key msg ∉ existingKeys) newMessages.

Definition appendMessages (newMessages : list Message) (prepend : bool)
    (s : ChatState) : ChatState :=
  match uniqueNewMessages newMessages s with
  | [] => s
  | unique =>
      with_messages
        (if prepend then unique ++ messages s else messages s ++ unique) s
  end.

Definition setLoadingMessages (loading : bool) (s : ChatState) : ChatState :=
  State (isConnected s) (isConnecting s) (connectionError s) (sessions s)
    (filteredSessions s) (currentSessionId s) (isLoadingSessions s)
    (messages s) loading (isLoadingMore s) (hasMoreMessages s)
    (contacts s) (searchKeyword s) (syncVersion s).

Definition setLoadingMore (loading : bool) (s : ChatState) : ChatState :=
  State (isConnected s) (isConnecting s) (connectionError s) (sessions s)
    (filteredSessions s) (currentSessionId s) (isLoadingSessions s)
    (messages s) (isLoadingMessages s) loading (hasMoreMessages s)
    (contacts s) (searchKeyword s) (syncVersion s).

Definition setHasMoreMessages (hasMore : bool) (s : ChatState) : ChatState :=
  State (isConnected s) (isConnecting s) (connectionError s) (sessions s)
    (filteredSessions s) (currentSessionId s) (isLoadingSessions s)
    (messages s) (isLoadingMessages s) (isLoadingMore s) hasMore
    (contacts s) (searchKeyword s) (syncVersion s).

(** [new Map(entries)]: the entries are set one after the other. *)
Definition Map_of (entries : list (jsstring * Contact))
  : list (jsstring * Contact) :=
  foldl (λ m e, Lru.map_set e.1 e.2 m) [] entries.

Definition setContacts (cs : list Contact) (s : ChatState) : ChatState :=
  with_contacts (Map_of ((λ c, (username c, c)) <$> cs)) s.

Definition addContact (contact : Contact) (s : ChatState) : ChatState :=
  let newContacts := Map_of (contacts s) in
  with_contacts (Lru.map_set (username contact) contact newContacts) s.

Definition setSearchKeyword (keyword : jsstring) (s : ChatState) : ChatState :=
  State (isConnected s) (isConnecting s) (connectionError s) (sessions s)
    (filteredSessions s) (currentSessionId s) (isLoadingSessions s)
    (messages s) (isLoadingMessages s) (isLoadingMore s) (hasMoreMessages s)
    (contacts s) keyword (syncVersion s).

Definition incrementSyncVersion (s : ChatState) : ChatState :=
  State (isConnected s) (isConnecting s) (connectionError s) (sessions s)
    (filteredSessions s) (currentSessionId s) (isLoadingSessions s)
    (messages s) (isLoadingMessages s) (isLoadingMore s) (hasMoreMessages s)
    (contacts s) (searchKeyword s) (syncVersion s + 1).

(** [reset]: every field it names gets its first value; [syncVersion] is
    not among them. *)
Definition reset (s : ChatState) : ChatState :=
  State false false None [] [] None false [] false false true [] []
    (syncVersion s).

(** The actions of the store. *)
Inductive action :=
| SetConnected (connected : bool)
| SetConnecting (connecting : bool)
| SetConnectionError (error : option jsstring)
| SetSessions (sessions' : list ChatSession + (list ChatSession → list ChatSession))
| SetFilteredSessions (l : list ChatSession)
| SetCurrentSession (sessionId : option jsstring)
| SetLoadingSessions (loading : bool)
| SetMessages (messages' : list Message + (list Message → list Message))
| AppendMessages (newMessages : list Message) (prepend : bool)
| SetLoadingMessages (loading : bool)
| SetLoadingMore (loading : bool)
| SetHasMoreMessages (hasMore : bool)
| SetContacts (cs : list Contact)
| AddContact (contact : Contact)
| SetSearchKeyword (keyword : jsstring)
| IncrementSyncVersion
| Reset.

Definition dispatch (s : ChatState) (a : action) : ChatState :=
  match a with
  | SetConnected b => setConnected b s
  | SetConnecting b => setConnecting b s
  | SetConnectionError e => setConnectionError e s
  | SetSessions l => setSessions l s
  | SetFilteredSessions l => setFilteredSessions l s
  | SetCurrentSession i => setCurrentSession i s
  | SetLoadingSessions b => setLoadingSessions b s
  | SetMessages l => setMessages l s
  | AppendMessages l b => appendMessages l b s
  | SetLoadingMessages b => setLoadingMessages b s
  | SetLoadingMore b => setLoadingMore b s
  | SetHasMoreMessages b => setHasMoreMessages b s
  | SetContacts cs => setContacts cs s
  | AddContact c => addContact c s
  | SetSearchKeyword k => setSearchKeyword k s
  | IncrementSyncVersion => incrementSyncVersion s
  | Reset => reset s
  end.

Definition run (acts : list action) (s : ChatState) : ChatState :=
  foldl dispatch s acts.

(** How often [incrementSyncVersion] occurs among the actions. *)
Definition is_increment (a : action) : bool :=
  match a with IncrementSyncVersion => true | _ => false end.

Definition increments (acts : list action) : nat :=
  length (filter (λ a, is_increment a = true) acts).

End Store.
End Store.

(** ** More concrete inputs *)

Module MoreExamples.

(** An installation without the library. *)
Definition no_dll_env : Dispatcher.env :=
  Dispatcher.Env [Js.lit "C:/app/resources/wcdb_decrypt.dll"]
    [Js.lit "C:/app/electron/workers/decryptWorker.js"]
    (λ _, false) (λ _, None).

(** An installation where only the second candidate of each list exists. *)
Definition second_candidate_env : Dispatcher.env :=
  Dispatcher.Env
    [Js.lit "C:/app/resources/wcdb_decrypt.dll";
     Js.lit "C:/app/native-dlls/wcdb_decrypt.dll"]
    [Js.lit "C:/app/electron/workers/decryptWorker.js";
     Js.lit "C:/app/workers/decryptWorker.js"]
    (λ p, bool_decide (p = Js.lit "C:/app/native-dlls/wcdb_decrypt.dll")
          || bool_decide (p = Js.lit "C:/app/workers/decryptWorker.js"))
    (λ _, None).

(** Two calls are pending. *)
Definition two_pending : Dispatcher.state :=
  Dispatcher.step Examples.app_env (Dispatcher.Submit Examples.another_call)
    Examples.one_pending.

(** Messages as quadruples of their four numbers. *)
Definition quad : Type := Z * Z * Z * Z.
Definition quad_serverId (m : quad) : Z := m.1.1.1.
Definition quad_localId (m : quad) : Z := m.1.1.2.
Definition quad_createTime (m : quad) : Z := m.1.2.
Definition quad_sortSeq (m : quad) : Z := m.2.

(** Contacts as a user name with a remark. *)
Definition named : Type := jsstring * jsstring.
Definition named_username (c : named) : jsstring := c.1.

End MoreExamples.

(* ===================================================================== *)
(** * Part II: the properties                                             *)
(* ===================================================================== *)

(** ** The progress throttle *)

Section Throttle.

Import Worker.
Variable id : jsstring.

Lemma onProgress_emits lastUpdate c :
  now c - lastUpdate > 100 ∨ current c = total c ∨ current c = 1 →
  onProgress id lastUpdate c = (now c, [Progress id (current c) (total c)]).
Proof.
  intros H. unfold onProgress.
  destruct (now c - lastUpdate >? 100) eqn:E1; [done|].
  destruct (current c =? total c) eqn:E2; [done|].
  destruct (current c =? 1) eqn:E3; [done|]. exfalso. lia.
Qed.

Lemma onProgress_suppresses lastUpdate c :
  ¬ (now c - lastUpdate > 100 ∨ current c = total c ∨ current c = 1) →
  onProgress id lastUpdate c = (lastUpdate, []).
Proof.
  intros H. unfold onProgress.
  destruct (now c - lastUpdate >? 100) eqn:E1; [exfalso; lia|].
  destruct (current c =? total c) eqn:E2; [exfalso; lia|].
  destruct (current c =? 1) eqn:E3; [exfalso; lia|]. done.
Qed.

Lemma onProgress_cases lastUpdate c :
  onProgress id lastUpdate c =
    if bool_decide (now c - lastUpdate > 100 ∨ current c = total c ∨ current c = 1)
    then (now c, [Progress id (current c) (total c)])
    else (lastUpdate, []).
Proof.
  case_bool_decide.
  - by apply onProgress_emits.
  - by apply onProgress_suppresses.
Qed.

Lemma onProgress_fst lastUpdate c :
  (onProgress id lastUpdate c).1 =
    match (onProgress id lastUpdate c).2 with
    | [] => lastUpdate
    | _ => now c
    end.
Proof. rewrite onProgress_cases. destruct (bool_decide _); reflexivity. Qed.

Lemma run_callbacks_cons lastUpdate c cs :
  run_callbacks id lastUpdate (c :: cs) =
    ((run_callbacks id (onProgress id lastUpdate c).1 cs).1,
     (onProgress id lastUpdate c).2 ::
       (run_callbacks id (onProgress id lastUpdate c).1 cs).2).
Proof.
  cbn [run_callbacks]. destruct (onProgress id lastUpdate c) as [l o].
  cbn [fst snd]. by destruct (run_callbacks id l cs).
Qed.

(** The variable [lastUpdate] always holds the time of the latest call
    that posted. *)
Lemma run_callbacks_last cs : ∀ start,
  (run_callbacks id start cs).1 =
    last_emission start cs (run_callbacks id start cs).2.
Proof.
  induction cs as [|c cs IH]; intros start; [done|].
  rewrite run_callbacks_cons. cbn [fst snd last_emission].
  rewrite IH. f_equal. apply onProgress_fst.
Qed.

Lemma run_callbacks_nth cs : ∀ start i c,
  cs !! i = Some c →
  let outs := (run_callbacks id start cs).2 in
  let last := last_emission start (take i cs) (take i outs) in
  outs !! i =
    Some (if bool_decide (now c - last > 100 ∨ current c = total c ∨ current c = 1)
          then [Progress id (current c) (total c)] else []).
Proof.
  induction cs as [|c0 cs IH]; intros start i c Hi; [done|].
  rewrite run_callbacks_cons. cbn [snd].
  destruct i as [|i].
  - simpl in Hi. injection Hi as ->. cbn.
    rewrite onProgress_cases. destruct (bool_decide _); reflexivity.
  - simpl in Hi. cbn [take lookup list_lookup last_emission].
    rewrite <- onProgress_fst. apply (IH _ i c Hi).
Qed.

End Throttle.

Lemma run_callbacks_length id cs : ∀ start,
  length (Worker.run_callbacks id start cs).2 = length cs.
Proof.
  induction cs as [|c cs IH]; intros start; [done|].
  rewrite run_callbacks_cons. cbn [snd length]. by rewrite IH.
Qed.

Lemma run_callbacks_take id cs : ∀ start n,
  Worker.run_callbacks id start (take n cs) =
    (Worker.last_emission start (take n cs)
       (take n (Worker.run_callbacks id start cs).2),
     take n (Worker.run_callbacks id start cs).2).
Proof.
  induction cs as [|c cs IH]; intros start n.
  - by destruct n.
  - destruct n as [|n]; [done|].
    cbn [take]. rewrite !run_callbacks_cons. cbn [fst snd take].
    rewrite IH. cbn [fst snd Worker.last_emission].
    by rewrite <- onProgress_fst.
Qed.

Lemma last_emission_snoc cs : ∀ start outs c o,
  length cs = length outs →
  Worker.last_emission start (cs ++ [c]) (outs ++ [o]) =
    match o with
    | [] => Worker.last_emission start cs outs
    | _ => Worker.now c
    end.
Proof.
  induction cs as [|c0 cs IH]; intros start [|o0 outs] c o Hlen;
    try discriminate; [done|].
  cbn [app Worker.last_emission]. apply IH. by injection Hlen.
Qed.

(** C1 (as amended).  Within one decrypt task, a call [(current, total)] of
    the progress callback posts a progress message exactly when more than
    100 ms have passed since the latest call that posted (since time 0 for
    the first one), or [current = total], or [current = 1]; a call that
    posts sets [lastUpdate] to its own time, a suppressed call posts
    nothing and leaves [lastUpdate] as it was. *)
Theorem throttle_emits_after_more_than_100ms :
  ∀ (id : jsstring) (cs : list Worker.invocation) (i : nat) (c : Worker.invocation),
    cs !! i = Some c →
    let outs := (Worker.run_callbacks id 0 cs).2 in
    let last := Worker.last_emission 0 (take i cs) (take i outs) in
    let emits :=
      bool_decide (Worker.now c - last > 100 ∨
                   Worker.current c = Worker.total c ∨
                   Worker.current c = 1) in
    outs !! i =
      Some (if emits
            then [Progress id (Worker.current c) (Worker.total c)] else [])
    ∧ (Worker.run_callbacks id 0 (take i cs)).1 = last
    ∧ (Worker.run_callbacks id 0 (take (S i) cs)).1 =
        (if emits then Worker.now c else last).
Proof.
  intros id cs i c Hi. cbv zeta.
  pose proof (run_callbacks_nth id cs 0 i c Hi) as Hout. cbv zeta in Hout.
  split; [exact Hout|]. split.
  - by rewrite run_callbacks_take.
  - rewrite run_callbacks_take. cbn [fst].
    rewrite (take_S_r cs i c Hi), (take_S_r _ i _ Hout).
    rewrite last_emission_snoc.
    + by destruct (bool_decide _).
    + rewrite !length_take, run_callbacks_length. done.
Qed.

Lemma throttle_emits_after_more_than_100ms_witness :
  (Worker.run_callbacks Examples.id 0 Examples.calls).2 !! 2%nat =
    Some [Progress Examples.id 3 10]
  ∧ (Worker.run_callbacks Examples.id 0 (take 2 Examples.calls)).1 =
      1700000000000
  ∧ (Worker.run_callbacks Examples.id 0 (take 3 Examples.calls)).1 =
      1700000000101.
Proof.
  exact (throttle_emits_after_more_than_100ms Examples.id Examples.calls 2
           (Worker.Invocation 1700000000101 3 10) eq_refl).
Defined.

(** The throttle as the specification words it fails at a call that comes
    exactly 100 ms after the latest one that posted: the code compares with
    [>] and stays silent. *)
Lemma throttle_silent_at_exactly_100ms :
  ¬ Claimed.throttle Examples.id (take 2 Examples.calls).
Proof.
  intros H. specialize (H 1%nat _ eq_refl). vm_compute in H. discriminate H.
Qed.

(** ** [validateKey] *)

(** C9.  [validateKey] answers [true] for every database path and key. *)
Theorem validateKey_always_true :
  ∀ dbPath hexKey : jsstring, validateKey dbPath hexKey = true.
Proof. reflexivity. Qed.

(** ** The worker's message handler *)

Section Handler.

Import Worker.
Variable E : env.
Variables id inputPath outputPath hexKey : jsstring.

(** The [try] block, path by path. *)
Lemma decrypt_body_paths s :
  decrypt_body E id inputPath outputPath hexKey s =
    match mkdir_error E outputPath with
    | Some e => (inr e, s)
    | None =>
        match register_fails E with
        | Some e => (inr e, s)
        | None =>
            let cb := next_callback s in
            let run := Wcdb_DecryptDatabaseWithProgress E inputPath outputPath hexKey in
            let progress := concat (run_callbacks id 0 run.1).2 in
            let live := {[cb]} ∪ registered s in
            match run.2 with
            | inr e => (inr e, State live (S cb) (posted s ++ progress))
            | inl result =>
                if result =? 0 then
                  (inl tt, State (live ∖ {[cb]}) (S cb)
                             ((posted s ++ progress) ++ [Success id]))
                else
                  match Wcdb_GetLastErrorMsg E with
                  | inr e =>
                      (inr e, State (live ∖ {[cb]}) (S cb) (posted s ++ progress))
                  | inl written =>
                      (inl tt,
                       State (live ∖ {[cb]}) (S cb)
                         ((posted s ++ progress) ++
                            [Error (Some id)
                               (Js.or_else
                                  (Js.replace_trailing_nul
                                     (Js.toString_utf8 (fill_buffer written)))
                                  (Js.lit "ErrorCode: " ++ Js.of_Z result))]))
                  end
            end
        end
    end.
Proof.
  unfold decrypt_body, mkdir_error, native_decrypt, koffi_register.
  unfold mbind, M_bind, bind.
  destruct (existsSync E (dirname E outputPath)); cbn [negb];
    [| destruct (mkdirSync E (dirname E outputPath)); cbn; [reflexivity|] ].
  all: cbn; destruct (register_fails E); cbn; [reflexivity|].
  all: destruct (Wcdb_DecryptDatabaseWithProgress E inputPath outputPath hexKey)
         as [calls [result|e]]; cbn; [|reflexivity].
  all: destruct (result =? 0); cbn; [reflexivity|].
  all: destruct (Wcdb_GetLastErrorMsg E); reflexivity.
Qed.

(** The handler with its [catch]. *)
Lemma on_message_decrypt s :
  on_message E (Decrypt id inputPath outputPath hexKey) s =
    match decrypt_body E id inputPath outputPath hexKey s with
    | (inl _, s') => (inl tt, s')
    | (inr err, s') =>
        (inl tt, State (registered s') (next_callback s')
                   (posted s' ++ [Error (Some id) (Js.String err)]))
    end.
Proof.
  unfold on_message, try_catch.
  destruct (decrypt_body E id inputPath outputPath hexKey s) as [[[]|e] s'];
    reflexivity.
Qed.

End Handler.

(** *** Stripping the NUL padding *)

Lemma all_nul_replicate n : Js.all_nul (replicate n 0%N) = true.
Proof. induction n; [done|]. done. Qed.

Lemma all_nul_true s : Js.all_nul s = true → s = replicate (length s) 0%N.
Proof.
  induction s as [|c r IH]; [done|].
  change (Js.all_nul (c :: r)) with ((0 =? c)%N && Js.all_nul r).
  intros [Hc Hr]%andb_true_iff. apply N.eqb_eq in Hc as <-.
  cbn [length replicate]. by rewrite <- IH.
Qed.

Lemma all_nul_app s t : Js.all_nul (s ++ t) = Js.all_nul s && Js.all_nul t.
Proof. apply forallb_app. Qed.

(** The result of the replacement is the string without its final run of
    NULs: what was cut is NULs only, and what is left does not end in one. *)
Lemma replace_trailing_nul_spec (s : jsstring) :
  (∃ n, s = Js.replace_trailing_nul s ++ replicate n 0%N)
  ∧ last (Js.replace_trailing_nul s) ≠ Some 0%N.
Proof.
  induction s as [|c r [[n IHn] IHl]]; [split; [by exists O | done]|].
  cbn [Js.replace_trailing_nul].
  destruct (Js.all_nul (c :: r)) eqn:Hall.
  - split; [|done]. exists (length (c :: r)). by apply all_nul_true.
  - split; [exists n; cbn; by rewrite <- IHn|].
    rewrite last_cons.
    destruct (last (Js.replace_trailing_nul r)) as [y|] eqn:Hlast; [done|].
    apply last_None in Hlast. rewrite Hlast in IHn. cbn in IHn.
    intros [= ->]. rewrite IHn in Hall. cbn in Hall.
    by rewrite all_nul_replicate in Hall.
Qed.

Lemma replace_trailing_nul_padding (text : jsstring) (n : nat) :
  last text ≠ Some 0%N →
  Js.replace_trailing_nul (text ++ replicate n 0%N) = text.
Proof.
  induction text as [|c t IH]; intros Hlast.
  - cbn. destruct n; [done|]. cbn. by rewrite all_nul_replicate.
  - cbn [app Js.replace_trailing_nul].
    assert (Js.all_nul (c :: t ++ replicate n 0%N) = false) as ->.
    { apply not_true_iff_false. intros Hall.
      change (Js.all_nul ((c :: t) ++ replicate n 0%N) = true) in Hall.
      rewrite all_nul_app in Hall. apply andb_true_iff in Hall as [Hall _].
      apply all_nul_true in Hall. apply Hlast. rewrite Hall.
      cbn [length replicate]. clear.
      induction (length t) as [|k IHk]; [done|].
      cbn [replicate]. by rewrite last_cons_cons. }
    f_equal. apply IH. rewrite last_cons in Hlast.
    destruct (last t); [done|]. done.
Qed.

(** Bytes below 128 decode to themselves. *)
Lemma toString_utf8_ascii (bs : list N) :
  Forall (λ b, (b ≤ 127)%N) bs → Js.toString_utf8 bs = bs.
Proof.
  unfold Js.toString_utf8. induction 1 as [|b bs Hb _ IH]; [done|].
  cbn [Js.decode]. unfold Js.lead.
  apply N.leb_le in Hb as ->. cbn. by rewrite IH.
Qed.

Lemma fill_buffer_padding (written : list N) :
  (length written ≤ 512)%nat →
  Worker.fill_buffer written =
    written ++ replicate (512 - length written) 0%N.
Proof.
  intros Hlen. unfold Worker.fill_buffer.
  rewrite take_app_ge by done. f_equal.
  rewrite take_replicate. f_equal. lia.
Qed.

(** *** Exceptions *)

(** C5.  The listener never throws, whatever the message and the state.
    For a decrypt request: whenever the [try] block throws, the listener
    completes having posted, last, an error message with the request's id
    and the stringified exception; this is what happens when creating the
    output directory fails and when the native call throws. *)
Theorem handler_catches_every_exception :
  ∀ (E : Worker.env) (s : Worker.state),
    (∀ m, (Worker.on_message E m s).1 = inl tt)
    ∧ ∀ id inputPath outputPath hexKey,
        let m := Decrypt id inputPath outputPath hexKey in
        (∀ err s1,
           Worker.decrypt_body E id inputPath outputPath hexKey s = (inr err, s1) →
           Worker.on_message E m s =
             (inl tt,
              Worker.State (Worker.registered s1) (Worker.next_callback s1)
                (Worker.posted s1 ++ [Error (Some id) (Js.String err)])))
        ∧ (∀ err,
             Worker.mkdir_error E outputPath = Some err →
             Worker.posted (Worker.on_message E m s).2 =
               Worker.posted s ++ [Error (Some id) (Js.String err)])
        ∧ (∀ err,
             Worker.mkdir_error E outputPath = None →
             Worker.register_fails E = None →
             (Worker.Wcdb_DecryptDatabaseWithProgress E inputPath outputPath hexKey).2
               = inr err →
             last (Worker.posted (Worker.on_message E m s).2) =
               Some (Error (Some id) (Js.String err))).
Proof.
  intros E s. split.
  - intros [| id i o k | | |]; try reflexivity.
    rewrite on_message_decrypt.
    by destruct (Worker.decrypt_body E id i o k s) as [[[]|e] s'].
  - intros id i o k m. subst m. split; [|split].
    + intros err s1 Hbody. by rewrite on_message_decrypt, Hbody.
    + intros err Hmk.
      by rewrite on_message_decrypt, decrypt_body_paths, Hmk.
    + intros err Hmk Hreg Hnative.
      rewrite on_message_decrypt, decrypt_body_paths, Hmk, Hreg.
      cbv zeta. rewrite Hnative. cbn [snd Worker.posted]. apply last_snoc.
Qed.

Lemma handler_catches_every_exception_witness :
  (Worker.on_message Examples.env_mkdir_fails Examples.request Worker.initial).1
    = inl tt
  ∧ Worker.posted
      (Worker.on_message Examples.env_mkdir_fails Examples.request
         Worker.initial).2
    = [Error (Some Examples.id) (Js.String Examples.mkdir_denied)]
  ∧ last (Worker.posted
            (Worker.on_message Examples.env_native_throws Examples.request
               Worker.initial).2)
    = Some (Error (Some Examples.id) (Js.String Examples.native_fault)).
Proof.
  split; [|split].
  - exact (proj1 (handler_catches_every_exception Examples.env_mkdir_fails
                    Worker.initial) Examples.request).
  - exact (proj1 (proj2 (proj2 (handler_catches_every_exception
                                  Examples.env_mkdir_fails Worker.initial)
                           _ _ _ _)) _ eq_refl).
  - exact (proj2 (proj2 (proj2 (handler_catches_every_exception
                                  Examples.env_native_throws Worker.initial)
                           _ _ _ _)) _ eq_refl eq_refl eq_refl).
Defined.

(** *** The callback's registration *)

Lemma register_then_unregister (live : gset nat) (cb : nat) :
  ({[cb]} ∪ live) ∖ {[cb]} = live ∖ {[cb]}.
Proof.
  apply set_eq. intros x.
  rewrite !elem_of_difference, elem_of_union. tauto.
Qed.

(** Whenever the native call returns, with any status, the callback that
    was registered for the request is no longer registered afterwards. *)
Lemma callback_unregistered_when_native_call_returns
    (E : Worker.env) (id inputPath outputPath hexKey : jsstring)
    (s : Worker.state) (result : Z) :
  Worker.mkdir_error E outputPath = None →
  Worker.register_fails E = None →
  (Worker.Wcdb_DecryptDatabaseWithProgress E inputPath outputPath hexKey).2
    = inl result →
  Worker.registered
    (Worker.on_message E (Decrypt id inputPath outputPath hexKey) s).2
  = Worker.registered s ∖ {[Worker.next_callback s]}.
Proof.
  intros Hmk Hreg Hnative.
  rewrite on_message_decrypt, decrypt_body_paths, Hmk, Hreg.
  cbv zeta. rewrite Hnative.
  destruct (result =? 0); [|destruct (Worker.Wcdb_GetLastErrorMsg E)];
    cbn [snd Worker.registered]; apply register_then_unregister.
Qed.



(** *** The error text of a failed decrypt *)

(** C7.  When the native call returns a status other than 0, the last
    message posted is an error for the request whose text is the decoded
    512-byte buffer without its final run of NULs, or ["ErrorCode: "]
    followed by the status when nothing is left.  What was cut off is NULs
    only and the text kept does not end in NUL; in particular, when the
    library wrote non-NUL ASCII bytes into the zeroed buffer, the text is
    exactly those bytes. *)
Theorem native_error_text :
  ∀ (E : Worker.env) (id inputPath outputPath hexKey : jsstring)
    (s : Worker.state) (result : Z) (written : list N),
    Worker.mkdir_error E outputPath = None →
    Worker.register_fails E = None →
    (Worker.Wcdb_DecryptDatabaseWithProgress E inputPath outputPath hexKey).2
      = inl result →
    result ≠ 0 →
    Worker.Wcdb_GetLastErrorMsg E = inl written →
    let decoded := Js.toString_utf8 (Worker.fill_buffer written) in
    let text := Js.replace_trailing_nul decoded in
    last (Worker.posted
            (Worker.on_message E (Decrypt id inputPath outputPath hexKey) s).2)
      = Some (Error (Some id)
                (match text with
                 | [] => Js.lit "ErrorCode: " ++ Js.of_Z result
                 | _ => text
                 end))
    ∧ (∃ n, decoded = text ++ replicate n 0%N)
    ∧ last text ≠ Some 0%N
    ∧ (Forall (λ b, (1 ≤ b ≤ 127)%N) written → (length written ≤ 512)%nat →
       text = written).
Proof.
  intros E id i o k s result written Hmk Hreg Hnative Hcode Hlast decoded text.
  split; [|split; [|split]].
  - rewrite on_message_decrypt, decrypt_body_paths, Hmk, Hreg.
    cbv zeta. rewrite Hnative, Hlast.
    apply Z.eqb_neq in Hcode as ->.
    cbn [snd Worker.posted]. rewrite last_snoc.
    fold decoded. fold text. unfold Js.or_else. by destruct text.
  - apply replace_trailing_nul_spec.
  - apply replace_trailing_nul_spec.
  - intros Hascii Hlen. unfold text, decoded.
    rewrite fill_buffer_padding by done.
    rewrite toString_utf8_ascii.
    + apply replace_trailing_nul_padding.
      intros Hend. apply last_Some_elem_of in Hend.
      rewrite Forall_forall in Hascii. apply Hascii in Hend. lia.
    + apply Forall_app. split.
      * eapply Forall_impl; [exact Hascii|]. intros b Hb. cbn in Hb. lia.
      * apply Forall_replicate. lia.
Qed.

Lemma native_error_text_witness :
  last (Worker.posted
          (Worker.on_message Examples.env_bad_key Examples.request
             Worker.initial).2)
  = Some (Error (Some Examples.id) (Js.lit "bad key")).
Proof.
  exact (proj1 (native_error_text Examples.env_bad_key
                  Examples.id (Js.lit "C:/wx/MSG0.db") (Js.lit "C:/out/MSG0.db")
                  (Js.lit "a1b2c3") Worker.initial 3 (Js.lit "bad key")
                  eq_refl eq_refl eq_refl ltac:(discriminate) eq_refl)).
Defined.

Example error_code_fallback :
  last (Worker.posted
          (Worker.on_message (Examples.worker_env None (inl (-7)) [])
             Examples.request Worker.initial).2)
  = Some (Error (Some Examples.id) (Js.lit "ErrorCode: -7")).
Proof. vm_compute. reflexivity. Qed.

Example success_posts_success :
  Worker.posted
    (Worker.on_message (Examples.worker_env None (inl 0) [])
       Examples.request Worker.initial).2
  = [Progress Examples.id 1 10; Progress Examples.id 3 10;
     Success Examples.id].
Proof. vm_compute. reflexivity. Qed.

(** ** The dispatcher *)

Section Init.

Import Dispatcher.
Variable E : env.

Lemma init_started s dll script :
  initialized s = false →
  findDllPath E = Some dll →
  findWorkerPath E = Some script →
  new_Worker E script = None →
  init E s =
    State (Some (spawned s)) (Some dll) true (initError s) (tasks s)
      (promises s) (progress_calls s) (sent s) (S (spawned s))
      (next_promise s).
Proof.
  intros Hinit Hdll Hscript Hnew. unfold init.
  rewrite Hinit. cbn. rewrite Hdll, Hscript, Hnew. reflexivity.
Qed.

(** [init] leaves a worker exactly when it constructed one, or when the
    service was initialised already. *)
Lemma init_worker s :
  initialized s = false →
  (worker (init E s) ≠ None ∧ initialized (init E s) = true
     ↔ ∃ script, findDllPath E ≠ None ∧ findWorkerPath E = Some script
                 ∧ new_Worker E script = None)
  ∧ (worker (init E s) = None → worker s = None → initialized (init E s) = false).
Proof.
  intros Hinit. unfold init. rewrite Hinit. cbn.
  destruct (findDllPath E) as [dll|] eqn:Hdll; cbn.
  - destruct (findWorkerPath E) as [script|] eqn:Hscript; cbn.
    + destruct (new_Worker E script) eqn:Hnew; cbn.
      * split; [|done]. split; [by rewrite Hinit; intros [_ ?]|].
        intros (script' & _ & [= <-] & Hnew'). congruence.
      * split; [|done]. split; [|done]. intros _. by exists script.
    + split; [|done]. split; [by rewrite Hinit; intros [_ ?]|].
      by intros (script' & _ & ? & _).
  - split; [|done]. split; [by rewrite Hinit; intros [_ ?]|].
    by intros (script' & ? & _).
Qed.

Lemma init_keeps s :
  tasks (init E s) = tasks s ∧ promises (init E s) = promises s
  ∧ next_promise (init E s) = next_promise s
  ∧ progress_calls (init E s) = progress_calls s
  ∧ sent (init E s) = sent s.
Proof.
  unfold init. destruct (initialized s); [done|]. cbn.
  destruct (findDllPath E); [|done]. cbn.
  destruct (findWorkerPath E) as [script|]; [|done].
  by destruct (new_Worker E script).
Qed.

End Init.

(** C3 (as amended).  [isAvailable] is true exactly when the service is
    marked initialised and holds a worker.  Right after construction that
    is the case as soon as the library and the worker script were found and
    the worker thread was constructed; handling the worker's [ready]
    message changes nothing in the service. *)
Theorem isAvailable_once_worker_constructed :
  (∀ s, Dispatcher.isAvailable s = true
        ↔ Dispatcher.initialized s = true ∧ Dispatcher.worker s ≠ None)
  ∧ (∀ E, Dispatcher.isAvailable (Dispatcher.construct E) = true
          ↔ ∃ script, Dispatcher.findDllPath E ≠ None
                      ∧ Dispatcher.findWorkerPath E = Some script
                      ∧ Dispatcher.new_Worker E script = None)
  ∧ (∀ s, Dispatcher.handleWorkerMessage Ready s = s).
Proof.
  assert (Havail : ∀ s, Dispatcher.isAvailable s = true
        ↔ Dispatcher.initialized s = true ∧ Dispatcher.worker s ≠ None).
  { intros s. unfold Dispatcher.isAvailable.
    rewrite andb_true_iff, bool_decide_eq_true. done. }
  split; [exact Havail|]. split; [|done].
  intros E. rewrite Havail. unfold Dispatcher.construct.
  destruct (init_worker E Dispatcher.blank eq_refl) as [<- _]. tauto.
Qed.

(** The service is available right after it was constructed, before any
    message of the worker was handled. *)
Lemma available_before_ready :
  ¬ Claimed.available_only_after_ready Examples.app_env [].
Proof.
  intros H. specialize (H ltac:(apply not_elem_of_nil)).
  vm_compute in H. discriminate H.
Qed.

(** *** Promises of pending tasks *)

Section Consistency.

Import Dispatcher.

Lemma consistent_blank : consistent blank.
Proof.
  split; [|split].
  - intros id t H. cbn in H. by rewrite lookup_empty in H.
  - intros p [r H]. cbn in H. by rewrite lookup_empty in H.
  - intros id1 id2 t1 t2 H. cbn in H. by rewrite lookup_empty in H.
Qed.

(** Only the table, the settled promises and the promise counter matter. *)
Lemma consistent_ext s s' :
  tasks s' = tasks s → promises s' = promises s →
  next_promise s' = next_promise s →
  consistent s → consistent s'.
Proof. unfold consistent. by intros -> -> ->. Qed.

Lemma consistent_init E s : consistent s → consistent (init E s).
Proof.
  destruct (init_keeps E s) as (Ht & Hp & Hn & _).
  by apply consistent_ext.
Qed.

Lemma consistent_restart E s : consistent s → consistent (restart_if_down E s).
Proof.
  unfold restart_if_down. destruct (worker s); [done|].
  destruct (_ && _); [apply consistent_init | done].
Qed.

Lemma restart_keeps E s :
  tasks (restart_if_down E s) = tasks s
  ∧ promises (restart_if_down E s) = promises s
  ∧ next_promise (restart_if_down E s) = next_promise s
  ∧ sent (restart_if_down E s) = sent s.
Proof.
  unfold restart_if_down. destruct (worker s); [done|].
  destruct (_ && _); [|done].
  destruct (init_keeps E s) as (? & ? & ? & ? & ?). done.
Qed.

Lemma consistent_submit E c s :
  consistent s → consistent (decryptDatabaseAsync E c s).2.
Proof.
  intros (H1 & H2 & H3). unfold decryptDatabaseAsync. cbn [new_promise].
  set (s1 := restart_if_down E _).
  destruct (restart_keeps E
    (State (worker s) (dllPath s) (initialized s) (initError s) (tasks s)
       (promises s) (progress_calls s) (sent s) (spawned s)
       (S (next_promise s)))) as (Ht & Hp & Hn & _).
  fold s1 in Ht, Hp, Hn. cbn in Ht, Hp, Hn.
  assert (Hfresh : promises s !! next_promise s = None).
  { destruct (promises s !! next_promise s) eqn:Hl; [|done].
    assert (next_promise s < next_promise s)%nat by (apply H2; eauto). lia. }
  destruct (worker s1) as [w|]; cbn [snd].
  - unfold consistent. cbn. rewrite Ht, Hp, Hn.
    split; [|split].
    + intros id t. rewrite lookup_insert. case_decide as Hid.
      * intros [= <-]. cbn. split; [lia | done].
      * intros Hl. destruct (H1 _ _ Hl). split; [lia | done].
    + intros p Hp'. apply H2 in Hp'. lia.
    + intros id1 id2 t1 t2. rewrite !lookup_insert.
      repeat case_decide; subst; try done.
      * intros [= <-] Hl Heq. cbn in Heq. destruct (H1 _ _ Hl). lia.
      * intros Hl [= <-] Heq. cbn in Heq. destruct (H1 _ _ Hl). lia.
      * apply H3.
  - unfold consistent, settle. cbn. rewrite Ht, Hp, Hn, Hfresh.
    split; [|split].
    + intros id t Hl. destruct (H1 _ _ Hl) as [Hlt Hnone].
      split; [lia|]. rewrite lookup_insert_ne by lia. done.
    + intros p. rewrite lookup_insert. case_decide; [lia|].
      intros Hp'. apply H2 in Hp'. lia.
    + apply H3.
Qed.

Lemma consistent_message m s :
  consistent s → consistent (handleWorkerMessage m s).
Proof.
  intros Hs. pose proof Hs as (H1 & H2 & H3).
  assert (Hdone : ∀ id t r,
    tasks s !! id = Some t →
    consistent (set_tasks (delete id (tasks s)) (settle (resolve t) r s))).
  { intros id t r Hl. destruct (H1 _ _ Hl) as [Hlt Hnone].
    unfold consistent, settle. cbn. rewrite Hnone.
    split; [|split].
    - intros id' t'. rewrite lookup_delete. case_decide; [done|].
      intros Hl'. destruct (H1 _ _ Hl') as [Hlt' Hnone'].
      split; [done|]. rewrite lookup_insert_ne; [done|].
      intros Heq. symmetry in Heq. by specialize (H3 _ _ _ _ Hl' Hl Heq).
    - intros p. rewrite lookup_insert. case_decide; [by subst|]. apply H2.
    - intros id1 id2 t1 t2. rewrite !lookup_delete.
      repeat case_decide; try done. apply H3. }
  unfold handleWorkerMessage.
  destruct m as [| id i o k | id cur tot | id | [id|] e]; cbn; try done.
  - by destruct (tasks s !! id).
  - destruct (tasks s !! id) as [t|]; [|done]. cbn.
    destruct (onProgress t); [|done].
    by apply (consistent_ext s).
  - destruct (tasks s !! id) as [t|] eqn:Hl; [|done]. cbn. by eapply Hdone.
  - destruct (tasks s !! id) as [t|] eqn:Hl; [|done]. cbn. by eapply Hdone.
Qed.

Lemma consistent_step E a s : consistent s → consistent (step E a s).
Proof.
  intros Hs. destruct a as [c | m | err | code]; cbn [step].
  - by apply consistent_submit.
  - by apply consistent_message.
  - by apply (consistent_ext s).
  - unfold on_exit. destruct (code =? 0); [done|]. by apply (consistent_ext s).
Qed.

Lemma reachable_consistent s : reachable s → consistent s.
Proof.
  induction 1 as [E | E a s _ IH].
  - apply consistent_init, consistent_blank.
  - by apply consistent_step.
Qed.

End Consistency.

(** *** Terminal messages *)

(** C6.  In every state the service can reach: a [success] or [error]
    message whose id is in the table settles the promise of that task,
    which was not settled before, with [{success: true}] or
    [{success: false, error}], removes the task from the table and changes
    nothing else; a [success] or [error] message whose id is not in the
    table, or that has no id, leaves the state as it was. *)
Theorem terminal_message_resolves_and_removes :
  ∀ s : Dispatcher.state,
    Dispatcher.reachable s →
    (∀ id t,
       Dispatcher.tasks s !! id = Some t →
       let settled r :=
         Dispatcher.State (Dispatcher.worker s) (Dispatcher.dllPath s)
           (Dispatcher.initialized s) (Dispatcher.initError s)
           (delete id (Dispatcher.tasks s))
           (<[Dispatcher.resolve t := r]> (Dispatcher.promises s))
           (Dispatcher.progress_calls s) (Dispatcher.sent s)
           (Dispatcher.spawned s) (Dispatcher.next_promise s) in
       Dispatcher.promises s !! Dispatcher.resolve t = None
       ∧ Dispatcher.handleWorkerMessage (Success id) s
           = settled (Dispatcher.Result true None)
       ∧ ∀ e, Dispatcher.handleWorkerMessage (Error (Some id) e) s
                = settled (Dispatcher.Result false (Some e)))
    ∧ (∀ id,
         Dispatcher.tasks s !! id = None →
         Dispatcher.handleWorkerMessage (Success id) s = s
         ∧ ∀ e, Dispatcher.handleWorkerMessage (Error (Some id) e) s = s)
    ∧ (∀ e, Dispatcher.handleWorkerMessage (Error None e) s = s).
Proof.
  intros s Hs. apply reachable_consistent in Hs as (H1 & _ & _).
  split; [|split].
  - intros id t Hl settled. destruct (H1 _ _ Hl) as [_ Hnone].
    split; [done|].
    unfold Dispatcher.handleWorkerMessage, Dispatcher.settle, settled.
    cbn. rewrite Hl. cbn. by rewrite Hnone.
  - intros id Hl. unfold Dispatcher.handleWorkerMessage. cbn. by rewrite Hl.
  - done.
Qed.

Lemma terminal_message_resolves_and_removes_witness :
  Dispatcher.tasks Examples.one_pending !! Examples.id
    = Some (Dispatcher.Task 0 None)
  ∧ Dispatcher.promises
      (Dispatcher.handleWorkerMessage
         (Error (Some Examples.id) (Js.lit "bad key")) Examples.one_pending)
      !! 0%nat
    = Some (Dispatcher.Result false (Some (Js.lit "bad key")))
  ∧ Dispatcher.tasks
      (Dispatcher.handleWorkerMessage
         (Error (Some Examples.id) (Js.lit "bad key")) Examples.one_pending)
      !! Examples.id
    = None.
Proof.
  split; [reflexivity|].
  pose proof (proj1 (terminal_message_resolves_and_removes
    Examples.one_pending
    (Dispatcher.reach_step _ _ _ (Dispatcher.reach_construct _)))
    Examples.id (Dispatcher.Task 0 None) eq_refl) as (_ & _ & H).
  rewrite (H (Js.lit "bad key")). split.
  - apply lookup_insert_eq.
  - apply lookup_delete_eq.
Defined.

(** *** Restart after an abnormal exit *)

(** C8 (as amended).  After the worker exited with a non-zero code, the
    next call of [decryptDatabaseAsync] runs [init] again only when no
    [initError] is recorded: then, with the library and the worker script
    in place, a new worker is constructed and the request is registered
    and posted to it.  When an [initError] is recorded (by a failed [init]
    or by the worker's ['error'] event), no worker is constructed and the
    call resolves with [{success: false, error: initError}]. *)
Theorem restart_after_exit_unless_init_error :
  ∀ (E : Dispatcher.env) (s : Dispatcher.state) (code : Z)
    (c : Dispatcher.call) (dll script : jsstring),
    Dispatcher.reachable s →
    code ≠ 0 →
    Dispatcher.findDllPath E = Some dll →
    Dispatcher.findWorkerPath E = Some script →
    Dispatcher.new_Worker E script = None →
    let r := Dispatcher.decryptDatabaseAsync E c (Dispatcher.on_exit code s) in
    let id := Dispatcher.generateId (Dispatcher.random36 c) in
    (Js.truthy_opt (Dispatcher.initError s) = false →
       Dispatcher.worker r.2 = Some (Dispatcher.spawned s)
       ∧ Dispatcher.spawned r.2 = S (Dispatcher.spawned s)
       ∧ Dispatcher.isAvailable r.2 = true
       ∧ Dispatcher.tasks r.2 !! id
           = Some (Dispatcher.Task r.1 (Dispatcher.progress c))
       ∧ Dispatcher.sent r.2
           = Dispatcher.sent s ++
               [(Dispatcher.spawned s,
                 Decrypt id (Dispatcher.inputPath c) (Dispatcher.outputPath c)
                   (Dispatcher.hexKey c))])
    ∧ (∀ e, Dispatcher.initError s = Some e → Js.truthy e = true →
         Dispatcher.worker r.2 = None
         ∧ Dispatcher.spawned r.2 = Dispatcher.spawned s
         ∧ Dispatcher.isAvailable r.2 = false
         ∧ Dispatcher.tasks r.2 = Dispatcher.tasks s
         ∧ Dispatcher.sent r.2 = Dispatcher.sent s
         ∧ Dispatcher.promises r.2 !! r.1
             = Some (Dispatcher.Result false (Some e))).
Proof.
  intros E s code c dll script Hs Hcode Hdll Hscript Hnew r id.
  apply reachable_consistent in Hs as (_ & H2 & _).
  assert (Hfresh : Dispatcher.promises s !! Dispatcher.next_promise s = None).
  { destruct (Dispatcher.promises s !! Dispatcher.next_promise s) eqn:Hl; [|done].
    assert (Dispatcher.next_promise s < Dispatcher.next_promise s)%nat
      by (apply H2; eauto). lia. }
  subst r. unfold Dispatcher.decryptDatabaseAsync, Dispatcher.on_exit.
  apply Z.eqb_neq in Hcode as ->.
  cbn [Dispatcher.new_promise Dispatcher.next_promise Dispatcher.worker
       Dispatcher.dllPath Dispatcher.initialized Dispatcher.initError
       Dispatcher.tasks Dispatcher.promises Dispatcher.progress_calls
       Dispatcher.sent Dispatcher.spawned].
  unfold Dispatcher.restart_if_down.
  cbn [Dispatcher.worker Dispatcher.initialized Dispatcher.initError negb andb].
  split.
  - intros ->. cbn [negb].
    erewrite init_started by (try eassumption; reflexivity).
    cbn. rewrite lookup_insert_eq. done.
  - intros e He Htruthy. rewrite He. cbn [Js.truthy_opt]. rewrite Htruthy.
    cbn. unfold Dispatcher.settle. cbn. rewrite Hfresh.
    rewrite lookup_insert_eq. unfold Js.or_else. rewrite Htruthy. done.
Qed.

Lemma restart_after_exit_unless_init_error_witness :
  Dispatcher.worker
    (Dispatcher.decryptDatabaseAsync Examples.app_env Examples.another_call
       (Dispatcher.on_exit 1 Examples.one_pending)).2
  = Some 1%nat
  ∧ Dispatcher.spawned
      (Dispatcher.decryptDatabaseAsync Examples.app_env Examples.another_call
         (Dispatcher.on_exit 1 Examples.one_pending)).2
    = 2%nat.
Proof.
  pose proof (proj1 (restart_after_exit_unless_init_error
    Examples.app_env Examples.one_pending 1 Examples.another_call
    (Js.lit "C:/app/resources/wcdb_decrypt.dll")
    (Js.lit "C:/app/electron/workers/decryptWorker.js")
    (Dispatcher.reach_step _ _ _ (Dispatcher.reach_construct _))
    ltac:(discriminate) eq_refl eq_refl eq_refl) eq_refl) as (Hw & Hn & _).
  split; [exact Hw | exact Hn].
Defined.

(** After the worker reported an error and exited with code 1, the next
    call constructs no worker, although the library and the script are in
    place. *)
Lemma no_restart_after_worker_error :
  ¬ Claimed.restarts_after_exit Examples.app_env
      (Dispatcher.on_error Examples.worker_fault Examples.one_pending)
      1 Examples.another_call.
Proof.
  intros H. destruct (H ltac:(discriminate)) as [Hw _].
  vm_compute in Hw. discriminate Hw.
Qed.

(** *** Correlation ids *)

Section Ids.

Import Dispatcher.
Variable E : env.

(** The table after a call: one insertion under the generated id when a
    worker is there, no change otherwise. *)
Lemma submit_tasks c s :
  tasks (decryptDatabaseAsync E c s).2 =
    match worker (restart_if_down E (new_promise s).2) with
    | Some _ =>
        <[generateId (random36 c) := Task (next_promise s) (progress c)]>
          (tasks s)
    | None => tasks s
    end.
Proof.
  unfold decryptDatabaseAsync.
  destruct (new_promise s) as [p s0] eqn:Hnp.
  injection Hnp as <- <-. cbn [snd].
  destruct (restart_keeps E
    (State (worker s) (dllPath s) (initialized s) (initError s) (tasks s)
       (promises s) (progress_calls s) (sent s) (spawned s)
       (S (next_promise s)))) as (Ht & _).
  destruct (worker (restart_if_down E _)); cbn; by rewrite Ht.
Qed.

Lemma reused_ids_cons c cs s :
  reused_ids E (c :: cs) s =
    (match worker (restart_if_down E (new_promise s).2),
           tasks s !! generateId (random36 c) with
     | Some _, Some _ => [generateId (random36 c)]
     | _, _ => []
     end) ++ reused_ids E cs (decryptDatabaseAsync E c s).2.
Proof.
  cbn [reused_ids]. f_equal.
  destruct (restart_keeps E (new_promise s).2) as (-> & _). done.
Qed.

Lemma no_reuse_when_ids_distinct cs : ∀ s,
  NoDup ((generateId ∘ random36) <$> cs) →
  (∀ c, c ∈ cs → tasks s !! generateId (random36 c) = None) →
  reused_ids E cs s = [].
Proof.
  induction cs as [|c cs IH]; intros s Hnd Hfree; [done|].
  rewrite reused_ids_cons.
  rewrite (Hfree c) by apply list_elem_of_here.
  rewrite fmap_cons in Hnd. apply NoDup_cons in Hnd as [Hc Hnd].
  replace (match worker _ with Some _ => [] | None => [] end)
    with (@nil jsstring) by (by destruct (worker _)).
  cbn [app]. apply IH; [done|].
  intros c' Hc'. rewrite submit_tasks.
  assert (tasks s !! generateId (random36 c') = None) as Hnone
    by (apply Hfree; by apply list_elem_of_further).
  destruct (worker _); [|done].
  rewrite lookup_insert_ne; [done|].
  intros Heq. apply Hc.
  apply (list_elem_of_fmap_2 (generateId ∘ random36)) in Hc'.
  unfold compose in Hc' |- *. by rewrite Heq.
Qed.

End Ids.

(** C2 (as amended).  The id of a new task is computed from the random
    text alone.  Over a sequence of calls whose ids are pairwise distinct
    and not in the pending table, no call inserts an id that the table
    still holds.  When the id generated for a call is in the table and a
    worker is there, the call inserts under it all the same: the entry of
    the pending task is replaced by the new task. *)
Theorem ids_fresh_only_when_draws_distinct :
  ∀ (E : Dispatcher.env) (s : Dispatcher.state),
    (∀ cs,
       NoDup ((Dispatcher.generateId ∘ Dispatcher.random36) <$> cs) →
       (∀ c, c ∈ cs →
          Dispatcher.tasks s !! Dispatcher.generateId (Dispatcher.random36 c)
            = None) →
       Dispatcher.reused_ids E cs s = [])
    ∧ (∀ c t,
         let id := Dispatcher.generateId (Dispatcher.random36 c) in
         Dispatcher.worker
           (Dispatcher.restart_if_down E (Dispatcher.new_promise s).2) ≠ None →
         Dispatcher.tasks s !! id = Some t →
         Dispatcher.reused_ids E [c] s = [id]
         ∧ Dispatcher.tasks (Dispatcher.decryptDatabaseAsync E c s).2
             = <[id := Dispatcher.Task (Dispatcher.next_promise s)
                         (Dispatcher.progress c)]> (Dispatcher.tasks s)).
Proof.
  intros E s. split.
  - intros cs. apply no_reuse_when_ids_distinct.
  - intros c t id Hw Hl. rewrite reused_ids_cons, submit_tasks.
    fold id. rewrite Hl.
    destruct (Dispatcher.worker _); [done|]. by destruct Hw.
Qed.

Lemma ids_fresh_only_when_draws_distinct_witness :
  Dispatcher.reused_ids Examples.app_env
    [Examples.a_call; Examples.another_call]
    (Dispatcher.construct Examples.app_env) = []
  ∧ Dispatcher.tasks
      (Dispatcher.decryptDatabaseAsync Examples.app_env Examples.a_call
         Examples.one_pending).2 !! Examples.id
    = Some (Dispatcher.Task 1 None).
Proof.
  split.
  - apply (proj1 (ids_fresh_only_when_draws_distinct Examples.app_env
                    (Dispatcher.construct Examples.app_env))).
    + apply (bool_decide_unpack _). vm_compute. reflexivity.
    + intros c Hc. reflexivity.
  - destruct (proj2 (ids_fresh_only_when_draws_distinct Examples.app_env
                       Examples.one_pending)
                Examples.a_call (Dispatcher.Task 0 None)
                ltac:(discriminate) eq_refl) as [_ ->].
    apply lookup_insert_eq.
Defined.

(** Two calls for which the random text is the same: the second one
    inserts the id that the first one's task still holds. *)
Lemma same_draw_reuses_pending_id :
  ¬ Claimed.never_reuses_pending_id Examples.app_env
      [Examples.a_call; Examples.a_call]
      (Dispatcher.construct Examples.app_env).
Proof.
  unfold Claimed.never_reuses_pending_id. vm_compute. discriminate.
Qed.

(** ** The LRU cache *)

Section MapLemmas.

Context {K V : Type} `{EqDecision K}.
Implicit Types (m : list (K * V)) (k : K) (v : V).

Lemma elem_of_map_delete k x m :
  x ∈ (Lru.map_delete k m).*1 ↔ x ∈ m.*1 ∧ x ≠ k.
Proof.
  induction m as [|[k' v'] m IH]; cbn.
  - rewrite elem_of_nil. tauto.
  - destruct (decide (k' = k)) as [->|Hne]; cbn.
    + rewrite IH, elem_of_cons. tauto.
    + rewrite !elem_of_cons, IH. intuition congruence.
Qed.

Lemma map_delete_Forall (P : K → Prop) k m :
  Forall P m.*1 → Forall P (Lru.map_delete k m).*1.
Proof.
  rewrite !Forall_forall. intros HP x [Hx _]%elem_of_map_delete. by apply HP.
Qed.

Lemma map_delete_sorted (R : relation K) k m :
  StronglySorted R m.*1 → StronglySorted R (Lru.map_delete k m).*1.
Proof.
  induction m as [|[k' v'] m IH]; cbn; [done|].
  intros [Hall Hs]%StronglySorted_cons.
  destruct (decide (k' = k)); cbn; [by apply IH|].
  apply StronglySorted_cons. split; [by apply map_delete_Forall | by apply IH].
Qed.

Lemma map_delete_NoDup k m :
  NoDup m.*1 → NoDup (Lru.map_delete k m).*1.
Proof.
  induction m as [|[k' v'] m IH]; cbn; [done|].
  intros [Hk Hnd]%NoDup_cons.
  destruct (decide (k' = k)); cbn; [by apply IH|].
  apply NoDup_cons. split; [|by apply IH].
  rewrite elem_of_map_delete. tauto.
Qed.

Lemma map_delete_absent k m : k ∉ m.*1 → Lru.map_delete k m = m.
Proof.
  induction m as [|[k' v'] m IH]; cbn; [done|].
  rewrite not_elem_of_cons. intros [Hne Hk].
  destruct (decide (k' = k)); [congruence|]. by rewrite IH.
Qed.

Lemma map_delete_length k m :
  NoDup m.*1 → k ∈ m.*1 →
  S (length (Lru.map_delete k m)) = length m.
Proof.
  induction m as [|[k' v'] m IH]; cbn.
  - intros _ Hk. by apply elem_of_nil in Hk.
  - intros [Hk' Hnd]%NoDup_cons Hk.
    destruct (decide (k' = k)) as [->|Hne]; cbn.
    + by rewrite map_delete_absent.
    + apply elem_of_cons in Hk as [->|Hk]; [done|]. by rewrite IH.
Qed.

Lemma map_set_absent k v m :
  k ∉ m.*1 → Lru.map_set k v m = m ++ [(k, v)].
Proof.
  induction m as [|[k' v'] m IH]; cbn; [done|].
  rewrite not_elem_of_cons. intros [Hne Hk].
  destruct (decide (k' = k)); [congruence|]. by rewrite IH.
Qed.

Lemma map_get_present k m : k ∈ m.*1 → is_Some (Lru.map_get k m).
Proof.
  induction m as [|[k' v'] m IH]; cbn.
  - intros Hk. by apply elem_of_nil in Hk.
  - intros Hk. destruct (decide (k' = k)); [by eexists|].
    apply elem_of_cons in Hk as [->|Hk]; [done | by apply IH].
Qed.

End MapLemmas.


Lemma full_iff (n : positive) (len : nat) :
  Qle_bool (inject_Z (Zpos n)) (inject_Z (Z.of_nat len)) = true
  ↔ (Pos.to_nat n ≤ len)%nat.
Proof. rewrite Qle_bool_iff, <- Zle_Qle. lia. Qed.

Section CacheInvariant.

Context {K V : Type} `{EqDecision K}.
Variable is_undefined : K → bool.

(** *** The time of last use *)

Lemma last_use_le (ops : list (@Lru.op K V)) : ∀ c k,
  (Lru.last_use is_undefined ops c k ≤ length ops)%nat.
Proof.
  induction ops as [|o ops IH]; intros c k; cbn; [done|].
  specialize (IH (Lru.apply is_undefined o c) k).
  destruct (Lru.last_use is_undefined ops _ k);
    [destruct (Lru.refreshes o c k); lia | lia].
Qed.

Lemma last_use_snoc (ops : list (@Lru.op K V)) o : ∀ c k,
  Lru.last_use is_undefined (ops ++ [o]) c k =
    if Lru.refreshes o (Lru.run is_undefined ops c) k
    then S (length ops) else Lru.last_use is_undefined ops c k.
Proof.
  induction ops as [|o' ops IH]; intros c k; cbn.
  - by destruct (Lru.refreshes o c k).
  - rewrite IH.
    change (foldl (λ c0 o0, Lru.apply is_undefined o0 c0)
              (Lru.apply is_undefined o' c) ops)
      with (Lru.run is_undefined ops (Lru.apply is_undefined o' c)).
    by destruct (Lru.refreshes o _ k).
Qed.

Variable c0 : @Lru.LRUCache K V.

(** Appending an operation that refreshes none of the listed keys keeps
    them ordered by last use. *)
Lemma sorted_untouched (ops : list (@Lru.op K V)) o (l : list K) :
  Forall (λ x, Lru.refreshes o (Lru.run is_undefined ops c0) x = false) l →
  StronglySorted (Lru.used_before is_undefined ops c0) l →
  StronglySorted (Lru.used_before is_undefined (ops ++ [o]) c0) l.
Proof.
  unfold Lru.used_before.
  induction l as [|x l IH]; [constructor|].
  intros [Hx Hl]%Forall_cons [Hall Hs]%StronglySorted_cons.
  apply StronglySorted_cons. split; [|by apply IH].
  rewrite Forall_forall in Hall, Hl |- *. intros y Hy.
  rewrite !last_use_snoc, Hx, (Hl y Hy). by apply Hall.
Qed.

Lemma used_untouched (ops : list (@Lru.op K V)) o (l : list K) :
  Forall (λ x, Lru.refreshes o (Lru.run is_undefined ops c0) x = false) l →
  Forall (Lru.used is_undefined ops c0) l →
  Forall (Lru.used is_undefined (ops ++ [o]) c0) l.
Proof.
  unfold Lru.used. rewrite !Forall_forall. intros Hl Hu x Hx.
  rewrite last_use_snoc, (Hl x Hx). by apply Hu.
Qed.

(** Putting the key that the appended operation refreshes at the end keeps
    the list ordered by last use. *)
Lemma sorted_pushed (ops : list (@Lru.op K V)) o key (l : list K) :
  Lru.refreshes o (Lru.run is_undefined ops c0) key = true →
  Forall (λ x, Lru.refreshes o (Lru.run is_undefined ops c0) x = false) l →
  StronglySorted (Lru.used_before is_undefined ops c0) l →
  StronglySorted (Lru.used_before is_undefined (ops ++ [o]) c0) (l ++ [key]).
Proof.
  intros Hkey Hl Hs. apply StronglySorted_app_2.
  - intros x1 x2 Hx1 ->%list_elem_of_singleton.
    rewrite Forall_forall in Hl. unfold Lru.used_before.
    rewrite !last_use_snoc, Hkey, (Hl x1 Hx1).
    pose proof (last_use_le ops c0 x1). lia.
  - by apply sorted_untouched.
  - repeat constructor.
Qed.

Lemma refreshes_other (o : @Lru.op K V) c key x :
  Lru.refreshes o c key = true → x ≠ key → Lru.refreshes o c x = false.
Proof.
  destruct o as [k | k v |]; cbn; [| |done].
  - intros [->%bool_decide_eq_true _]%andb_true_iff Hx.
    rewrite bool_decide_eq_false_2; [done | congruence].
  - intros ->%bool_decide_eq_true Hx. apply bool_decide_eq_false. congruence.
Qed.

Variable n : positive.

(** What holds of the cache [c] reached from [c0] by the operations [ops]:
    its keys are distinct and defined, at most [n] in number, each of them
    was used, and they are listed from the least to the most recently
    used. *)
Local Abbreviation invariant ops c :=
  (Lru.capacity c = inject_Z (Zpos n)
   ∧ NoDup (Lru.keys c)
   ∧ Forall (λ k, is_undefined k = false) (Lru.keys c)
   ∧ le (Lru.size c) (Pos.to_nat n)
   ∧ Forall (Lru.used is_undefined ops c0) (Lru.keys c)
   ∧ StronglySorted (Lru.used_before is_undefined ops c0) (Lru.keys c)).

(** The key refreshed by the appended operation is put last, after entries
    [m0] that are what is left of the cache once room was made. *)
Lemma push_invariant ops (o : @Lru.op K V) key value cap (m0 : list (K * V)) :
  cap = inject_Z (Zpos n) →
  Lru.refreshes o (Lru.run is_undefined ops c0) key = true →
  is_undefined key = false →
  key ∉ m0.*1 →
  NoDup m0.*1 →
  Forall (λ k, is_undefined k = false) m0.*1 →
  (S (length m0) ≤ Pos.to_nat n)%nat →
  Forall (Lru.used is_undefined ops c0) m0.*1 →
  StronglySorted (Lru.used_before is_undefined ops c0) m0.*1 →
  invariant (ops ++ [o]) (Lru.Cache cap (Lru.map_set key value m0)).
Proof.
  intros -> Hname Hdef Hkey Hnd Hall Hlen Hu Hs.
  unfold Lru.keys, Lru.size. cbn [Lru.capacity Lru.cache].
  rewrite map_set_absent by done. rewrite fmap_app. cbn [fmap list_fmap fst].
  assert (Hothers : Forall
    (λ x, Lru.refreshes o (Lru.run is_undefined ops c0) x = false) m0.*1).
  { rewrite Forall_forall. intros x Hx.
    apply (refreshes_other o _ key); [done|]. by intros ->. }
  split; [done|]. split; [|split; [|split; [|split]]].
  - apply NoDup_app. split; [done|]. split; [|apply NoDup_singleton].
    intros x Hx ->%list_elem_of_singleton. done.
  - apply Forall_app. split; [done|]. by apply Forall_singleton.
  - rewrite length_app. cbn. lia.
  - apply Forall_app. split; [by apply used_untouched|].
    apply Forall_singleton. unfold Lru.used. rewrite last_use_snoc, Hname. lia.
  - by apply sorted_pushed.
Qed.

Lemma apply_invariant ops (o : @Lru.op K V) c :
  c = Lru.run is_undefined ops c0 →
  (∀ key value, o = Lru.Set_ key value → is_undefined key = false) →
  invariant ops c →
  invariant (ops ++ [o]) (Lru.apply is_undefined o c).
Proof.
  intros Hrun Hdef (Hcap & Hnd & Hall & Hlen & Hu & Hs).
  unfold Lru.keys, Lru.size in *.
  destruct o as [key | key value |]; cbn [Lru.apply].
  - (* get *)
    unfold Lru.get, Lru.map_has.
    case_bool_decide as Hin; cbn [negb].
    + destruct (map_get_present key (Lru.cache c) Hin) as [value ->].
      cbn [snd]. apply push_invariant; try done.
      * cbn. rewrite <- Hrun. unfold Lru.map_has.
        by rewrite !bool_decide_eq_true_2.
      * rewrite Forall_forall in Hall. by apply Hall.
      * rewrite elem_of_map_delete. tauto.
      * by apply map_delete_NoDup.
      * by apply map_delete_Forall.
      * by rewrite map_delete_length.
      * by apply map_delete_Forall.
      * by apply map_delete_sorted.
    + cbn [snd].
      assert (Hothers : Forall
        (λ x, Lru.refreshes (Lru.Get key) (Lru.run is_undefined ops c0) x
              = false) (Lru.cache c).*1).
      { rewrite Forall_forall. intros x Hx. cbn.
        rewrite <- Hrun. unfold Lru.map_has.
        rewrite (bool_decide_eq_false_2 (key ∈ _)) by done.
        apply andb_false_r. }
      split; [done|]. split; [done|]. split; [done|]. split; [done|].
      split; [by apply used_untouched | by apply sorted_untouched].
  - (* set *)
    specialize (Hdef key value eq_refl).
    unfold Lru.set, Lru.map_has.
    case_bool_decide as Hin.
    + apply push_invariant; try done.
      * cbn. by apply bool_decide_eq_true.
      * rewrite elem_of_map_delete. tauto.
      * by apply map_delete_NoDup.
      * by apply map_delete_Forall.
      * by rewrite map_delete_length.
      * by apply map_delete_Forall.
      * by apply map_delete_sorted.
    + rewrite Hcap.
      destruct (Qle_bool _ _) eqn:Hfull.
      * apply full_iff in Hfull.
        destruct (Lru.cache c) as [|[k0 v0] m'] eqn:Hc; cbn in Hfull; [lia|].
        cbn [Lru.first_key fmap list_fmap fst head].
        apply Forall_cons in Hall as Hk0. destruct Hk0 as [Hk0 _].
        cbn in Hk0. rewrite Hk0. cbn [negb].
        apply push_invariant; try done.
        -- cbn. by apply bool_decide_eq_true.
        -- rewrite elem_of_map_delete. tauto.
        -- by apply map_delete_NoDup.
        -- by apply map_delete_Forall.
        -- rewrite map_delete_length; [done | done | apply list_elem_of_here].
        -- by apply map_delete_Forall.
        -- by apply map_delete_sorted.
      * apply not_true_iff_false in Hfull. rewrite full_iff in Hfull.
        apply push_invariant; try done.
        -- cbn. by apply bool_decide_eq_true.
        -- lia.
  - (* clear *)
    cbn. repeat split; try done; try constructor. lia.
Qed.

End CacheInvariant.

Lemma run_invariant {K V : Type} `{EqDecision K} (is_undefined : K → bool)
    (n : positive) (ops : list (@Lru.op K V)) :
  Lru.defined_keys is_undefined ops →
  let c0 := Lru.new (inject_Z (Zpos n)) in
  let c := Lru.run is_undefined ops c0 in
  Lru.capacity c = inject_Z (Zpos n)
  ∧ NoDup (Lru.keys c)
  ∧ Forall (λ k, is_undefined k = false) (Lru.keys c)
  ∧ (Lru.size c ≤ Pos.to_nat n)%nat
  ∧ Forall (Lru.used is_undefined ops c0) (Lru.keys c)
  ∧ StronglySorted (Lru.used_before is_undefined ops c0) (Lru.keys c).
Proof.
  intros Hdef c0. cbv zeta.
  induction ops as [|o ops IH] using rev_ind.
  - cbn. repeat split; try done; try constructor. lia.
  - unfold Lru.run. rewrite foldl_snoc. apply apply_invariant.
    + reflexivity.
    + intros key value ->. apply (Hdef key value).
      apply elem_of_app. right. apply list_elem_of_here.
    + apply IH. intros key value Hin. apply (Hdef key value).
      apply elem_of_app. by left.
Qed.

(** C10 (as amended).  For a cache constructed with a capacity that is a
    positive integer [n], after any sequence of [get], [set] and [clear]
    in which no [set] uses [undefined] as its key: the size is at most
    [n]; the cache lists its keys, each of which was inserted or refreshed
    by some operation, from the least to the most recently used; and a
    [set] of a new key on the full cache removes the first of them, which
    was used less recently than every other key, and puts the new key
    last. *)
Theorem lru_bounded_and_evicts_least_recent :
  ∀ {K V : Type} `{EqDecision K} (is_undefined : K → bool) (n : positive)
    (ops : list (@Lru.op K V)),
    Lru.defined_keys is_undefined ops →
    let c0 := Lru.new (inject_Z (Zpos n)) in
    let c := Lru.run is_undefined ops c0 in
    (Lru.size c ≤ Pos.to_nat n)%nat
    ∧ Forall (Lru.used is_undefined ops c0) (Lru.keys c)
    ∧ StronglySorted (Lru.used_before is_undefined ops c0) (Lru.keys c)
    ∧ ∀ key value,
        key ∉ Lru.keys c →
        Lru.size c = Pos.to_nat n →
        ∃ lru rest,
          Lru.keys c = lru :: rest
          ∧ Lru.keys (Lru.set is_undefined key value c) = rest ++ [key]
          ∧ Forall (Lru.used_before is_undefined ops c0 lru) rest.
Proof.
  intros K V ? is_undefined n ops Hdef c0 c.
  destruct (run_invariant is_undefined n ops Hdef)
    as (Hcap & Hnd & Hall & Hlen & Hu & Hs).
  fold c0 in Hcap, Hnd, Hall, Hlen, Hu, Hs.
  fold c in Hcap, Hnd, Hall, Hlen, Hu, Hs.
  split; [done|]. split; [done|]. split; [done|].
  intros key value Hkey Hfull.
  unfold Lru.keys, Lru.size in *.
  destruct (Lru.cache c) as [|[k0 v0] m'] eqn:Hc; cbn in Hfull; [lia|].
  exists k0, m'.*1. split; [done|].
  apply StronglySorted_cons in Hs as [Hk0 _]. split; [|exact Hk0].
  unfold Lru.set, Lru.map_has. rewrite Hc.
  rewrite bool_decide_eq_false_2 by done.
  rewrite Hcap.
  assert (Qle_bool (inject_Z (Z.pos n))
            (inject_Z (Z.of_nat (length ((k0, v0) :: m')))) = true) as ->.
  { apply full_iff. cbn. lia. }
  cbn [Lru.first_key fmap list_fmap fst head].
  apply Forall_cons in Hall as [Hdef0 _]. cbn in Hdef0. rewrite Hdef0.
  cbn [negb Lru.cache Lru.map_delete].
  rewrite decide_True by done.
  apply NoDup_cons in Hnd as [Hk0' _].
  rewrite map_delete_absent by done.
  rewrite map_set_absent.
  - by rewrite fmap_app.
  - intros Hin. apply Hkey. cbn. by apply list_elem_of_further.
Qed.

Lemma lru_bounded_and_evicts_least_recent_witness :
  (Lru.size
     (Lru.run Examples.number_key Examples.three_sets
        (Lru.new (inject_Z 2))) ≤ 2)%nat
  ∧ Lru.keys
      (Lru.set Examples.number_key 3%nat 30%nat
         (Lru.run Examples.number_key Examples.three_sets
            (Lru.new (inject_Z 2))))
    = [1%nat; 3%nat].
Proof.
  pose proof (lru_bounded_and_evicts_least_recent
                Examples.number_key 2%positive Examples.three_sets) as H.
  destruct H as (Hsize & _ & _ & Hevict).
  - intros key value _. reflexivity.
  - split; [exact Hsize|].
    destruct (Hevict 3%nat 30%nat) as (lru & rest & Hkeys & Hset & _).
    + apply (bool_decide_unpack _). vm_compute. reflexivity.
    + reflexivity.
    + rewrite Hset. injection Hkeys as _ <-. reflexivity.
Defined.

(** A capacity of one half is positive, and one [set] makes the size 1. *)
Lemma fractional_capacity_exceeded :
  ¬ Claimed.size_within_capacity Examples.number_key (1 # 2)
      [Lru.Set_ 1%nat 10%nat].
Proof.
  intros H. specialize (H ltac:(reflexivity)). vm_compute in H. by apply H.
Qed.

(** With [undefined] as the oldest key, a full cache of capacity 1 evicts
    nothing and grows to two entries. *)
Example undefined_key_never_evicted :
  Lru.size
    (Lru.run Examples.maybe_number_key
       [Lru.Set_ None 10%nat; Lru.Set_ (Some 1%nat) 20%nat]
       (Lru.new (inject_Z 1)))
  = 2%nat.
Proof. reflexivity. Qed.

(** ** Checks on concrete values *)

Example of_Z_int_range :
  Js.of_Z 0 = Js.lit "0"
  ∧ Js.of_Z 3 = Js.lit "3"
  ∧ Js.of_Z 2147483647 = Js.lit "2147483647"
  ∧ Js.of_Z (-2147483648) = Js.lit "-2147483648".
Proof. repeat split; reflexivity. Qed.

(** "€" and U+1F600 decode to one code unit and to a surrogate pair; a
    truncated sequence followed by NULs gives U+FFFD and the NULs; an
    overlong encoding of NUL gives two U+FFFD. *)
Example toString_utf8_cases :
  Js.toString_utf8 [226; 130; 172; 240; 159; 152; 128]%N
    = [8364; 55357; 56832]%N
  ∧ Js.toString_utf8 [226; 0; 0]%N = [65533; 0; 0]%N
  ∧ Js.toString_utf8 [192; 128]%N = [65533; 65533]%N.
Proof. repeat split; reflexivity. Qed.

Example replace_trailing_nul_inner_nul_kept :
  Js.replace_trailing_nul [97; 0; 98; 0; 0]%N = [97; 0; 98]%N.
Proof. reflexivity. Qed.

Example generateId_drops_the_integer_part :
  Dispatcher.generateId (Js.lit "0.k3x9") = Js.lit "k3x9"
  ∧ Dispatcher.generateId (Js.lit "0.4fzyo82mvyrabcdefgh") = Js.lit "4fzyo82mvyrab"
  ∧ Dispatcher.generateId (Js.lit "0") = [].
Proof. repeat split; reflexivity. Qed.

Example String_of_errors :
  Js.String Examples.native_fault = Js.lit "Error: native call failed"
  ∧ Js.String (Js.MkError (Js.lit "Error") []) = Js.lit "Error".
Proof. split; reflexivity. Qed.

(** The worker's error event records an [initError], the exit that follows
    drops the worker, and the next call resolves with that error. *)
Example call_after_worker_error_resolves_with_initError :
  Dispatcher.promises
    (Dispatcher.run Examples.app_env
       [Dispatcher.Submit Examples.a_call;
        Dispatcher.WorkerError Examples.worker_fault;
        Dispatcher.WorkerExit 1;
        Dispatcher.Submit Examples.another_call]
       (Dispatcher.construct Examples.app_env)) !! 1%nat
  = Some (Dispatcher.Result false
            (Some (Js.lit "Worker error: koffi: cannot load library"))).
Proof. vm_compute. reflexivity. Qed.

(* ===================================================================== *)
(** * Part III: further properties of the code                            *)
(* ===================================================================== *)

(** ** The worker: what one request posts *)

Lemma passed_calls (id : jsstring) (cs : list Worker.invocation) :
  ∀ lastUpdate, ∃ passed,
    concat (Worker.run_callbacks id lastUpdate cs).2
      = Requests.progress_of id <$> passed
    ∧ sublist passed cs.
Proof.
  induction cs as [|c cs IH]; intros lastUpdate.
  - exists []. split; [done | constructor].
  - rewrite run_callbacks_cons. cbn [snd concat].
    destruct (IH (Worker.onProgress id lastUpdate c).1) as (passed & -> & Hsub).
    rewrite onProgress_cases. destruct (bool_decide _); cbn [snd fst].
    + exists (c :: passed). split; [done | by constructor].
    + exists passed. split; [done | by constructor].
Qed.

Lemma request_output :
  ∀ (E : Worker.env) (id inputPath outputPath hexKey : jsstring)
    (s : Worker.state),
    ∃ passed terminal,
      Worker.posted
        (Worker.on_message E (Decrypt id inputPath outputPath hexKey) s).2
        = Worker.posted s ++ (Requests.progress_of id <$> passed) ++ [terminal]
      ∧ sublist passed
          (Worker.Wcdb_DecryptDatabaseWithProgress E inputPath outputPath hexKey).1
      ∧ (terminal = Success id ∨ ∃ e, terminal = Error (Some id) e)
      ∧ (terminal = Success id ↔ Requests.succeeds E inputPath outputPath hexKey).
Proof.
  intros E id i o k s. unfold Requests.succeeds.
  rewrite on_message_decrypt, decrypt_body_paths.
  destruct (Worker.mkdir_error E o) as [e|].
  { exists [], (Error (Some id) (Js.String e)). cbn.
    split; [done|]. split; [apply sublist_nil_l|]. split; [eauto|].
    split; [done | by intros [? _]]. }
  destruct (Worker.register_fails E) as [e|].
  { exists [], (Error (Some id) (Js.String e)). cbn.
    split; [done|]. split; [apply sublist_nil_l|]. split; [eauto|].
    split; [done | by intros (_ & ? & _)]. }
  cbv zeta.
  destruct (passed_calls id
    (Worker.Wcdb_DecryptDatabaseWithProgress E i o k).1 0)
    as (passed & -> & Hsub).
  exists passed.
  destruct (Worker.Wcdb_DecryptDatabaseWithProgress E i o k).2
    as [result|e] eqn:Hres.
  - destruct (result =? 0) eqn:Hzero.
    + exists (Success id). cbn. rewrite <- app_assoc.
      apply Z.eqb_eq in Hzero as ->. repeat split; auto.
    + apply Z.eqb_neq in Hzero.
      destruct (Worker.Wcdb_GetLastErrorMsg E) as [written|e]; cbn.
      * eexists. rewrite <- ?app_assoc. split; [reflexivity|]. split; [done|].
        split; [eauto|]. split; [done|]. intros (_ & _ & [= ->]). done.
      * eexists. rewrite <- ?app_assoc. split; [reflexivity|]. split; [done|].
        split; [eauto|]. split; [done|]. intros (_ & _ & [= ->]). done.
  - exists (Error (Some id) (Js.String e)). cbn. rewrite <- ?app_assoc.
    split; [done|]. split; [done|]. split; [eauto|].
    split; [done | by intros (_ & _ & ?)].
Qed.

(** X1.  For every decrypt request the worker posts, after what was posted
    before, progress messages for calls of the callback in the order the
    library made them, each with the request's id, and then exactly one
    terminal message, with that id: [success] when no step threw and the
    status was 0, [error] in every other case. *)
Theorem request_posts_progress_then_one_terminal :
  ∀ (E : Worker.env) (id inputPath outputPath hexKey : jsstring)
    (s : Worker.state),
    ∃ passed terminal,
      Worker.posted
        (Worker.on_message E (Decrypt id inputPath outputPath hexKey) s).2
        = Worker.posted s ++ (Requests.progress_of id <$> passed) ++ [terminal]
      ∧ sublist passed
          (Worker.Wcdb_DecryptDatabaseWithProgress E inputPath outputPath hexKey).1
      ∧ (terminal = Success id ∨ ∃ e, terminal = Error (Some id) e)
      ∧ (terminal = Success id ↔ Requests.succeeds E inputPath outputPath hexKey).
Proof.
  intros E id i o k s.
  destruct (request_output E id i o k s)
    as (passed & terminal & Hposted & Hsub & Hkind & Hsuccess).
  exists passed, terminal. split; [exact Hposted|].
  split; [exact Hsub|]. split; [exact Hkind | exact Hsuccess].
Qed.

(** ** The worker: callbacks over many requests *)

Lemma handle_request (s : Worker.state) (r : Worker.env * message) :
  Requests.handles_in_range s →
  Requests.handles_in_range (Requests.handle s r)
  ∧ size (Worker.registered (Requests.handle s r))
    = (size (Worker.registered s)
       + (if Requests.native_throws r then 1 else 0))%nat.
Proof.
  intros Hrange. destruct r as [E m]. unfold Requests.handle, Requests.native_throws.
  cbn [fst snd].
  assert (Hfresh : Worker.next_callback s ∉ Worker.registered s).
  { intros Hin. apply Hrange in Hin. lia. }
  assert (Hsame : ({[Worker.next_callback s]} ∪ Worker.registered s)
                    ∖ {[Worker.next_callback s]} = Worker.registered s).
  { rewrite register_then_unregister. apply difference_disjoint_L.
    apply disjoint_singleton_r. done. }
  assert (Hgrow : ∀ h, h ∈ Worker.registered s →
                       (h < S (Worker.next_callback s))%nat).
  { intros h Hh. apply Hrange in Hh. lia. }
  destruct m as [| id i o k | | |]; try (split; [done | cbn; lia]).
  rewrite on_message_decrypt, decrypt_body_paths.
  destruct (Worker.mkdir_error E o); [split; [done | cbn; lia]|].
  destruct (Worker.register_fails E); [split; [done | cbn; lia]|].
  cbv zeta.
  destruct (Worker.Wcdb_DecryptDatabaseWithProgress E i o k).2 as [result|e].
  - assert (∀ posted, Requests.handles_in_range
              (Worker.State (Worker.registered s)
                 (S (Worker.next_callback s)) posted)) as Hok
      by (intros posted h Hh; by apply Hgrow).
    destruct (result =? 0); [|destruct (Worker.Wcdb_GetLastErrorMsg E)];
      cbn [snd Worker.registered]; rewrite Hsame;
      (split; [apply Hok | lia]).
  - cbn [snd Worker.registered]. split.
    + intros h. cbn. rewrite elem_of_union, elem_of_singleton.
      intros [-> | Hh]; [lia | by apply Hgrow].
    + rewrite size_union by (by apply disjoint_singleton_l).
      rewrite size_singleton. lia.
Qed.

(** X2.  Over any sequence of messages handled by the worker, the number
    of callbacks still registered grows by exactly the number of decrypt
    requests whose native call threw; every other request, whatever its
    outcome, leaves none behind. *)
Theorem callbacks_left_behind :
  ∀ (rs : list (Worker.env * message)) (s : Worker.state),
    Requests.handles_in_range s →
    Requests.handles_in_range (Requests.run rs s)
    ∧ size (Worker.registered (Requests.run rs s))
      = (size (Worker.registered s)
         + length (filter (λ r, Requests.native_throws r = true) rs))%nat.
Proof.
  induction rs as [|r rs IH]; intros s Hrange.
  - cbn. split; [done | lia].
  - destruct (handle_request s r Hrange) as [Hrange' Hsize].
    destruct (IH _ Hrange') as [Hfinal Hcount].
    change (Requests.run (r :: rs) s)
      with (Requests.run rs (Requests.handle s r)).
    split; [done|]. rewrite Hcount, Hsize, filter_cons.
    destruct (Requests.native_throws r); cbn.
    + rewrite decide_True by done. cbn. lia.
    + rewrite decide_False by done. lia.
Qed.

Lemma callbacks_left_behind_witness :
  size (Worker.registered
          (Requests.run
             [(Examples.env_native_throws, Examples.request);
              (Examples.env_bad_key, Examples.request);
              (Examples.env_native_throws, Examples.request)]
             Worker.initial))
  = 2%nat.
Proof.
  apply (proj2 (callbacks_left_behind
    [(Examples.env_native_throws, Examples.request);
     (Examples.env_bad_key, Examples.request);
     (Examples.env_native_throws, Examples.request)]
    Worker.initial
    ltac:(intros h Hh; by apply elem_of_empty in Hh))).
Defined.

(** ** The worker's start-up and the service *)

(** X3.  The worker script posts exactly one message while it starts:
    [ready], and then it listens, exactly when the library path is a
    non-empty string, the file exists and loading and binding succeed;
    otherwise an [error] without id.  Handling that message changes
    nothing in the service, so the text of a start-up error is never
    recorded.  What the service sees of a failed start-up is the exit
    alone: when the path is missing or empty or names no file, the script
    ends with [process.exit(1)] and the exit listener drops the worker,
    so that [isAvailable] is false while [initError] is as before; when
    loading or binding throws, the script posts the error and does not
    call [process.exit], and the service is left exactly as it was, also
    if the thread then ends with code 0. *)
Theorem startup_failure_seen_only_through_exit :
  ∀ (E : Startup.env) (s : Dispatcher.state),
    ((Startup.start E).2 = Startup.Listening
       ↔ ∃ p, Startup.dllPath E = Some p ∧ Js.truthy p = true
              ∧ Startup.existsSync E p = true ∧ Startup.load E = None)
    ∧ ((Startup.start E).2 = Startup.Idle
       ↔ ∃ p err, Startup.dllPath E = Some p ∧ Js.truthy p = true
                  ∧ Startup.existsSync E p = true
                  ∧ Startup.load E = Some err)
    ∧ ((Startup.start E).2 = Startup.Listening → (Startup.start E).1 = [Ready])
    ∧ ((Startup.start E).2 ≠ Startup.Listening →
         ∃ e, (Startup.start E).1 = [Error None e])
    ∧ Service.deliver (Startup.start E).1 s = s
    ∧ match (Startup.start E).2 with
      | Startup.Exited code =>
          code = 1
          ∧ Service.after_startup (Startup.start E) s = Dispatcher.on_exit 1 s
          ∧ Dispatcher.worker (Service.after_startup (Startup.start E) s) = None
          ∧ Dispatcher.isAvailable (Service.after_startup (Startup.start E) s)
              = false
          ∧ Dispatcher.initError (Service.after_startup (Startup.start E) s)
              = Dispatcher.initError s
      | Startup.Idle | Startup.Listening =>
          Service.after_startup (Startup.start E) s = s
          ∧ Dispatcher.on_exit 0 (Service.after_startup (Startup.start E) s)
              = s
      end.
Proof.
  intros E s.
  assert (Hexit : Dispatcher.worker (Dispatcher.on_exit 1 s) = None
                  ∧ Dispatcher.isAvailable (Dispatcher.on_exit 1 s) = false
                  ∧ Dispatcher.initError (Dispatcher.on_exit 1 s)
                      = Dispatcher.initError s) by done.
  unfold Service.after_startup, Startup.start.
  destruct (Startup.dllPath E) as [p|].
  - destruct (Js.truthy p) eqn:Ht; cbn [negb orb].
    + destruct (Startup.existsSync E p) eqn:Hex; cbn [negb].
      * destruct (Startup.load E) as [err|] eqn:Hload; cbn [fst snd].
        -- split; [split; [done | by intros (? & [= <-] & _ & _ & ?)]|].
           split; [split; [by intros _; exists p, err | done]|].
           split; [done|]. split; [by intros _; eexists|]. done.
        -- split; [split; [by intros _; exists p | done]|].
           split; [split; [done | by intros (? & ? & [= <-] & _ & _ & ?)]|].
           split; [done|]. split; [by intros []|]. done.
      * cbn [fst snd].
        split; [split; [done | intros (? & [= <-] & _ & ? & _); congruence]|].
        split; [split; [done | intros (? & ? & [= <-] & _ & ? & _); congruence]|].
        split; [done|]. split; [by intros _; eexists|]. split; [done|].
        split; [done|]. split; [done|]. exact Hexit.
    + cbn [fst snd].
      split; [split; [done | intros (? & [= <-] & ? & _); congruence]|].
      split; [split; [done | intros (? & ? & [= <-] & ? & _); congruence]|].
      split; [done|]. split; [by intros _; eexists|]. split; [done|].
      split; [done|]. split; [done|]. exact Hexit.
  - cbn [fst snd].
    split; [split; [done | by intros (? & ? & _)]|].
    split; [split; [done | by intros (? & ? & ? & _)]|].
    split; [done|]. split; [by intros _; eexists|]. split; [done|].
    split; [done|]. split; [done|]. exact Hexit.
Qed.

(** ** A task from the call to its result *)

Lemma deliver_app (ms ms' : list message) (s : Dispatcher.state) :
  Service.deliver (ms ++ ms') s = Service.deliver ms' (Service.deliver ms s).
Proof. apply foldl_app. Qed.

Lemma deliver_cons (m : message) (ms : list message) (s : Dispatcher.state) :
  Service.deliver (m :: ms) s =
    Service.deliver ms (Dispatcher.handleWorkerMessage m s).
Proof. reflexivity. Qed.

Lemma handle_progress (id : jsstring) (t : Dispatcher.DecryptTask)
    (c : Worker.invocation) (s : Dispatcher.state) :
  Dispatcher.tasks s !! id = Some t →
  Dispatcher.handleWorkerMessage (Requests.progress_of id c) s =
    match Dispatcher.onProgress t with
    | Some f =>
        Dispatcher.call_progress f (Worker.current c) (Worker.total c) s
    | None => s
    end.
Proof. intros Hl. unfold Dispatcher.handleWorkerMessage. cbn. by rewrite Hl. Qed.

(** Progress messages for a pending task reach its progress function and
    change nothing else. *)
Lemma deliver_progress (id : jsstring) (t : Dispatcher.DecryptTask)
    (passed : list Worker.invocation) : ∀ s,
  Dispatcher.tasks s !! id = Some t →
  Service.deliver (Requests.progress_of id <$> passed) s =
    Dispatcher.State (Dispatcher.worker s) (Dispatcher.dllPath s)
      (Dispatcher.initialized s) (Dispatcher.initError s) (Dispatcher.tasks s)
      (Dispatcher.promises s)
      (Dispatcher.progress_calls s ++
         Service.sink_calls (Dispatcher.onProgress t)
           (Requests.progress_of id <$> passed))
      (Dispatcher.sent s) (Dispatcher.spawned s) (Dispatcher.next_promise s).
Proof.
  induction passed as [|c passed IH]; intros s Hl.
  - destruct (Dispatcher.onProgress t); cbn; rewrite app_nil_r; by destruct s.
  - rewrite fmap_cons, deliver_cons.
    rewrite (handle_progress id t) by done.
    destruct (Dispatcher.onProgress t) as [f|] eqn:Hf.
    + rewrite IH by done. cbn. by rewrite <- app_assoc.
    + by rewrite IH.
Qed.

Lemma sink_calls_app (f : option nat) (ms ms' : list message) :
  Service.sink_calls f (ms ++ ms') =
    Service.sink_calls f ms ++ Service.sink_calls f ms'.
Proof. destruct f; [apply omap_app | done]. Qed.

(** X4.  A call made while a worker is there, with an id that is not in
    the table: the request is posted to the worker, and once the messages
    that the worker posts for this request are handled, in their order,
    the table is as it was before the call, the caller's progress function
    received the progress messages, and the promise of the call is settled
    with [{success: true}] when the request succeeded and with
    [{success: false, error}], the error of the worker's last message,
    when it did not. *)
Theorem task_round_trip :
  ∀ (A : Dispatcher.env) (c : Dispatcher.call) (s : Dispatcher.state)
    (w : nat) (E : Worker.env) (ws : Worker.state),
    Dispatcher.reachable s →
    Dispatcher.worker s = Some w →
    Dispatcher.tasks s !! Dispatcher.generateId (Dispatcher.random36 c) = None →
    let id := Dispatcher.generateId (Dispatcher.random36 c) in
    let request :=
      Decrypt id (Dispatcher.inputPath c) (Dispatcher.outputPath c)
        (Dispatcher.hexKey c) in
    let r := Dispatcher.decryptDatabaseAsync A c s in
    let answer :=
      drop (length (Worker.posted ws))
        (Worker.posted (Worker.on_message E request ws).2) in
    let s' := Service.deliver answer r.2 in
    Dispatcher.sent r.2 = Dispatcher.sent s ++ [(w, request)]
    ∧ Dispatcher.tasks s' = Dispatcher.tasks s
    ∧ Dispatcher.progress_calls s'
        = Dispatcher.progress_calls s
          ++ Service.sink_calls (Dispatcher.progress c) answer
    ∧ (Requests.succeeds E (Dispatcher.inputPath c) (Dispatcher.outputPath c)
         (Dispatcher.hexKey c) →
       Dispatcher.promises s'
         = <[r.1 := Dispatcher.Result true None]> (Dispatcher.promises s))
    ∧ (¬ Requests.succeeds E (Dispatcher.inputPath c) (Dispatcher.outputPath c)
           (Dispatcher.hexKey c) →
       ∃ e, last answer = Some (Error (Some id) e)
            ∧ Dispatcher.promises s'
                = <[r.1 := Dispatcher.Result false (Some e)]>
                    (Dispatcher.promises s)).
Proof.
  intros A c s w E ws Hs Hw Hfree id request r answer s'.
  apply reachable_consistent in Hs as (_ & H2 & _).
  assert (Hfresh : Dispatcher.promises s !! Dispatcher.next_promise s = None).
  { destruct (Dispatcher.promises s !! Dispatcher.next_promise s) eqn:Hl; [|done].
    assert (Dispatcher.next_promise s < Dispatcher.next_promise s)%nat
      by (apply H2; eauto). lia. }
  destruct (request_output E id (Dispatcher.inputPath c)
              (Dispatcher.outputPath c) (Dispatcher.hexKey c) ws)
    as (passed & terminal & Hposted & _ & Hkind & Hsuccess).
  assert (Hanswer : answer = (Requests.progress_of id <$> passed) ++ [terminal]).
  { unfold answer, request. rewrite Hposted. apply drop_app_length. }
  clearbody answer. subst answer.
  assert (Hr : r = (Dispatcher.next_promise s,
    Dispatcher.State (Some w) (Dispatcher.dllPath s)
      (Dispatcher.initialized s) (Dispatcher.initError s)
      (<[id := Dispatcher.Task (Dispatcher.next_promise s)
                 (Dispatcher.progress c)]> (Dispatcher.tasks s))
      (Dispatcher.promises s) (Dispatcher.progress_calls s)
      (Dispatcher.sent s ++ [(w, request)]) (Dispatcher.spawned s)
      (S (Dispatcher.next_promise s)))).
  { unfold r, Dispatcher.decryptDatabaseAsync, Dispatcher.restart_if_down.
    cbn. rewrite Hw. cbn. reflexivity. }
  clearbody r. subst r. cbn [fst snd] in *.
  split; [done|].
  unfold s'. rewrite deliver_app.
  rewrite (deliver_progress id
             (Dispatcher.Task (Dispatcher.next_promise s) (Dispatcher.progress c)))
    by apply lookup_insert_eq.
  cbn [Dispatcher.worker Dispatcher.dllPath Dispatcher.initialized
       Dispatcher.initError Dispatcher.tasks Dispatcher.promises
       Dispatcher.progress_calls Dispatcher.sent Dispatcher.spawned
       Dispatcher.next_promise Dispatcher.onProgress].
  rewrite sink_calls_app.
  destruct Hkind as [-> | [e ->]].
  - cbn. rewrite lookup_insert_eq. cbn. unfold Dispatcher.settle. cbn.
    rewrite Hfresh, delete_insert_id by done.
    split; [done|]. split.
    { destruct (Dispatcher.progress c); cbn; by rewrite ?app_nil_r. }
    split; [done|]. intros Hno. destruct Hno. by apply Hsuccess.
  - cbn. rewrite lookup_insert_eq. cbn. unfold Dispatcher.settle. cbn.
    rewrite Hfresh, delete_insert_id by done.
    split; [done|]. split.
    { destruct (Dispatcher.progress c); cbn; by rewrite ?app_nil_r. }
    split.
    + intros Hyes. apply Hsuccess in Hyes. discriminate Hyes.
    + intros _. exists e. split; [apply last_snoc | done].
Qed.

Lemma task_round_trip_witness :
  Dispatcher.promises
    (Service.deliver
       (drop (length (Worker.posted Worker.initial))
          (Worker.posted
             (Worker.on_message (Examples.worker_env None (inl 0) [])
                Examples.request Worker.initial).2))
       (Dispatcher.decryptDatabaseAsync Examples.app_env Examples.a_call
          (Dispatcher.construct Examples.app_env)).2) !! 0%nat
  = Some (Dispatcher.Result true None).
Proof.
  destruct (task_round_trip Examples.app_env Examples.a_call
              (Dispatcher.construct Examples.app_env) 0%nat
              (Examples.worker_env None (inl 0) []) Worker.initial
              (Dispatcher.reach_construct _) eq_refl eq_refl)
    as (_ & _ & _ & Hok & _).
  specialize (Hok ltac:(repeat split)).
  exact (eq_trans (f_equal (λ m, m !! 0%nat) Hok) (lookup_insert_eq _ _ _)).
Defined.

(** ** The life of the service *)

Section Lifecycle.

Import Dispatcher.

Lemma message_keeps_lifecycle m s :
  worker (handleWorkerMessage m s) = worker s
  ∧ initialized (handleWorkerMessage m s) = initialized s
  ∧ initError (handleWorkerMessage m s) = initError s
  ∧ spawned (handleWorkerMessage m s) = spawned s
  ∧ sent (handleWorkerMessage m s) = sent s
  ∧ next_promise (handleWorkerMessage m s) = next_promise s.
Proof.
  unfold handleWorkerMessage.
  destruct m as [| id i o k | id cur tot | id | [id|] e]; cbn; try done.
  - by destruct (tasks s !! id).
  - destruct (tasks s !! id) as [t|]; [|done]. cbn.
    by destruct (onProgress t).
  - by destruct (tasks s !! id).
  - by destruct (tasks s !! id).
Qed.

Lemma message_shrinks_tasks m s :
  tasks (handleWorkerMessage m s) ⊆ tasks s.
Proof.
  unfold handleWorkerMessage.
  destruct m as [| id i o k | id cur tot | id | [id|] e]; cbn; try done.
  - by destruct (tasks s !! id).
  - destruct (tasks s !! id) as [t|]; [|done]. cbn.
    by destruct (onProgress t).
  - destruct (tasks s !! id); [|done]. cbn. apply delete_subseteq.
  - destruct (tasks s !! id); [|done]. cbn. apply delete_subseteq.
Qed.

(** A truthy [initError] with no worker stays so, and nothing is started
    or sent, under every action. *)
Lemma failed_step E a s :
  worker s = None → Js.truthy_opt (initError s) = true →
  worker (step E a s) = None
  ∧ Js.truthy_opt (initError (step E a s)) = true
  ∧ spawned (step E a s) = spawned s
  ∧ sent (step E a s) = sent s
  ∧ tasks (step E a s) ⊆ tasks s.
Proof.
  intros Hw He. destruct a as [c | m | err | code]; cbn [step].
  - unfold decryptDatabaseAsync, restart_if_down. cbn.
    rewrite Hw, He, andb_false_r. cbn. rewrite ?Hw. cbn. done.
  - destruct (message_keeps_lifecycle m s) as (-> & _ & -> & -> & -> & _).
    repeat split; try done. apply message_shrinks_tasks.
  - cbn. done.
  - unfold on_exit. destruct (code =? 0); cbn; done.
Qed.

End Lifecycle.

(** X5.  Once the service has no worker and a non-empty [initError] is
    recorded, as after a failed construction or after a worker error
    followed by an abnormal exit, it stays that way under every sequence
    of calls and worker events, in whatever installation: no worker is
    constructed, no request is sent and no task is added. *)
Theorem init_error_is_permanent :
  ∀ (steps : list (Dispatcher.env * Dispatcher.action)) (s : Dispatcher.state),
    Dispatcher.worker s = None →
    Js.truthy_opt (Dispatcher.initError s) = true →
    Dispatcher.worker (Service.run_in steps s) = None
    ∧ Dispatcher.isAvailable (Service.run_in steps s) = false
    ∧ Js.truthy_opt (Dispatcher.initError (Service.run_in steps s)) = true
    ∧ Dispatcher.spawned (Service.run_in steps s) = Dispatcher.spawned s
    ∧ Dispatcher.sent (Service.run_in steps s) = Dispatcher.sent s
    ∧ Dispatcher.tasks (Service.run_in steps s) ⊆ Dispatcher.tasks s.
Proof.
  induction steps as [|[E a] steps IH]; intros s Hw He.
  - cbn. unfold Dispatcher.isAvailable. rewrite Hw.
    rewrite bool_decide_eq_false_2 by (intros H; by apply H).
    rewrite andb_false_r. done.
  - destruct (failed_step E a s Hw He) as (Hw' & He' & Hsp & Hsent & Htasks).
    destruct (IH _ Hw' He') as (? & ? & ? & Hsp' & Hsent' & Htasks').
    change (Service.run_in ((E, a) :: steps) s)
      with (Service.run_in steps (Dispatcher.step E a s)).
    repeat split; try done; try congruence.
    by etrans.
Qed.

Lemma init_error_is_permanent_witness :
  Dispatcher.worker
    (Service.run_in
       [(Examples.app_env, Dispatcher.Submit Examples.a_call);
        (Examples.app_env, Dispatcher.WorkerExit 1);
        (Examples.app_env, Dispatcher.Submit Examples.another_call)]
       (Dispatcher.construct MoreExamples.no_dll_env))
  = None
  ∧ Dispatcher.spawned
      (Service.run_in
         [(Examples.app_env, Dispatcher.Submit Examples.a_call);
          (Examples.app_env, Dispatcher.WorkerExit 1);
          (Examples.app_env, Dispatcher.Submit Examples.another_call)]
         (Dispatcher.construct MoreExamples.no_dll_env))
    = 0%nat.
Proof.
  destruct (init_error_is_permanent
    [(Examples.app_env, Dispatcher.Submit Examples.a_call);
     (Examples.app_env, Dispatcher.WorkerExit 1);
     (Examples.app_env, Dispatcher.Submit Examples.another_call)]
    (Dispatcher.construct MoreExamples.no_dll_env) eq_refl eq_refl)
    as (Hw & _ & _ & Hsp & _).
  split; [exact Hw | exact Hsp].
Defined.

Lemma wrapper_step (a : Service.action) (s : Dispatcher.state) :
  Dispatcher.worker s = None →
  Dispatcher.worker (Service.step s a) = None
  ∧ Dispatcher.spawned (Service.step s a) = Dispatcher.spawned s
  ∧ Dispatcher.sent (Service.step s a) = Dispatcher.sent s
  ∧ Dispatcher.tasks (Service.step s a) ⊆ Dispatcher.tasks s.
Proof.
  intros Hw. destruct a as [E c | m | err | code]; cbn [Service.step].
  - unfold Service.decryptDatabase, Dispatcher.isAvailable. rewrite Hw.
    rewrite bool_decide_eq_false_2 by (intros H; by apply H).
    rewrite andb_false_r. cbn. done.
  - destruct (message_keeps_lifecycle m s) as (-> & _ & _ & -> & -> & _).
    repeat split; try done. apply message_shrinks_tasks.
  - cbn. done.
  - unfold Dispatcher.on_exit. destruct (code =? 0); cbn; done.
Qed.

(** X6.  Used through [decryptDatabase], a service without a worker never
    gets one again: under every sequence of calls and worker events no
    worker is constructed and no request is sent, whether or not an
    [initError] is recorded, and every further call is answered at once
    with the "service unavailable" error. *)
Theorem wrapper_never_restarts :
  ∀ (acts : list Service.action) (s : Dispatcher.state),
    Dispatcher.worker s = None →
    Dispatcher.worker (Service.run acts s) = None
    ∧ Dispatcher.spawned (Service.run acts s) = Dispatcher.spawned s
    ∧ Dispatcher.sent (Service.run acts s) = Dispatcher.sent s
    ∧ Dispatcher.tasks (Service.run acts s) ⊆ Dispatcher.tasks s
    ∧ ∀ E c,
        Service.decryptDatabase E c (Service.run acts s)
        = (inl (Dispatcher.Result false (Some Service.unavailable)),
           Service.run acts s).
Proof.
  induction acts as [|a acts IH]; intros s Hw.
  - cbn. repeat split; try done. intros E c.
    unfold Service.decryptDatabase, Dispatcher.isAvailable. rewrite Hw.
    rewrite bool_decide_eq_false_2 by (intros H; by apply H).
    by rewrite andb_false_r.
  - destruct (wrapper_step a s Hw) as (Hw' & Hsp & Hsent & Htasks).
    destruct (IH _ Hw') as (? & Hsp' & Hsent' & Htasks' & Hcall).
    change (Service.run (a :: acts) s)
      with (Service.run acts (Service.step s a)).
    repeat split; try done; try congruence.
    by etrans.
Qed.

Lemma wrapper_never_restarts_witness :
  Service.decryptDatabase Examples.app_env Examples.another_call
    (Service.run
       [Service.WorkerExit 1;
        Service.Call Examples.app_env Examples.another_call]
       Examples.one_pending)
  = (inl (Dispatcher.Result false (Some Service.unavailable)),
     Service.run
       [Service.WorkerExit 1;
        Service.Call Examples.app_env Examples.another_call]
       Examples.one_pending).
Proof.
  destruct (wrapper_never_restarts
    [Service.Call Examples.app_env Examples.another_call]
    (Dispatcher.on_exit 1 Examples.one_pending) eq_refl)
    as (_ & _ & _ & _ & Hcall).
  exact (Hcall Examples.app_env Examples.another_call).
Defined.

(** ** Finding the library and the worker script *)

Lemma find_first {A} (f : A → bool) (l : list A) :
  match List.find f l with
  | Some p =>
      ∃ before after, l = before ++ p :: after ∧ f p = true
                      ∧ Forall (λ q, f q = false) before
  | None => Forall (λ q, f q = false) l
  end.
Proof.
  induction l as [|x l IH]; cbn; [constructor|].
  destruct (f x) eqn:Hx.
  - exists [], l. split; [done|]. split; [done | constructor].
  - destruct (List.find f l) as [p|].
    + destruct IH as (before & after & -> & Hp & Hbefore).
      exists (x :: before), after. split; [done|]. split; [done|].
      by constructor.
    + by constructor.
Qed.

(** X7.  [findDllPath] and [findWorkerPath] answer the first candidate
    that exists, provided it is not the empty string: every candidate
    before it is missing.  They answer [null] exactly when no candidate
    exists or the first one that exists is the empty string. *)
Theorem find_path_takes_first_existing :
  ∀ E : Dispatcher.env,
    let exists_ := Dispatcher.existsSync E in
    let first (candidates : list jsstring) (found : option jsstring) :=
      match found with
      | Some p =>
          Js.truthy p = true
          ∧ ∃ before after,
              candidates = before ++ p :: after ∧ exists_ p = true
              ∧ Forall (λ q, exists_ q = false) before
      | None =>
          Forall (λ q, exists_ q = false) candidates
          ∨ ∃ before after,
              candidates = before ++ [] :: after ∧ exists_ [] = true
              ∧ Forall (λ q, exists_ q = false) before
      end in
    first (Dispatcher.dll_candidates E) (Dispatcher.findDllPath E)
    ∧ first (Dispatcher.worker_candidates E) (Dispatcher.findWorkerPath E).
Proof.
  intros E exists_ first.
  assert (Hfirst : ∀ candidates,
            first candidates (Dispatcher.or_null (List.find exists_ candidates))).
  { intros candidates. pose proof (find_first exists_ candidates) as H.
    destruct (List.find exists_ candidates) as [p|]; cbn.
    - destruct p as [|ch p]; cbn.
      + right. exact H.
      + split; [done | exact H].
    - by left. }
  split; apply Hfirst.
Qed.

Example findDllPath_second_candidate :
  Dispatcher.findDllPath MoreExamples.second_candidate_env
    = Some (Js.lit "C:/app/native-dlls/wcdb_decrypt.dll")
  ∧ Dispatcher.findWorkerPath MoreExamples.second_candidate_env
    = Some (Js.lit "C:/app/workers/decryptWorker.js").
Proof. split; vm_compute; reflexivity. Qed.

(** ** Construction *)

Lemma init_failed_truthy (e : Js.error) :
  Js.truthy (Dispatcher.init_failed ++ Js.String e) = true.
Proof. reflexivity. Qed.

(** X8.  A new service either holds worker 0, is initialised and has no
    [initError], which happens exactly when the library and the worker
    script were found and the worker was constructed, or it holds no
    worker, is not initialised and has a non-empty [initError]; its table
    of tasks is empty in both cases. *)
Theorem construction_starts_or_records_error :
  ∀ E : Dispatcher.env,
    let s := Dispatcher.construct E in
    Dispatcher.tasks s = ∅
    ∧ ((Dispatcher.worker s = Some 0%nat
        ∧ Dispatcher.initialized s = true
        ∧ Dispatcher.initError s = None
        ∧ Dispatcher.spawned s = 1%nat
        ∧ Dispatcher.dllPath s = Dispatcher.findDllPath E
        ∧ ∃ script, Dispatcher.findDllPath E ≠ None
                    ∧ Dispatcher.findWorkerPath E = Some script
                    ∧ Dispatcher.new_Worker E script = None)
       ∨ (Dispatcher.worker s = None
          ∧ Dispatcher.initialized s = false
          ∧ Js.truthy_opt (Dispatcher.initError s) = true
          ∧ Dispatcher.spawned s = 0%nat
          ∧ ¬ ∃ script, Dispatcher.findDllPath E ≠ None
                        ∧ Dispatcher.findWorkerPath E = Some script
                        ∧ Dispatcher.new_Worker E script = None)).
Proof.
  intros E s. subst s. unfold Dispatcher.construct, Dispatcher.init. cbn.
  destruct (Dispatcher.findDllPath E) as [dll|] eqn:Hdll; cbn.
  - destruct (Dispatcher.findWorkerPath E) as [script|] eqn:Hscript; cbn.
    + destruct (Dispatcher.new_Worker E script) as [e|] eqn:Hnew; cbn.
      * split; [done|]. right. repeat split; try done.
        intros (script' & _ & [= <-] & Hnew'). congruence.
      * split; [done|]. left. repeat split; try done. by exists script.
    + split; [done|]. right. repeat split; try done.
      by intros (script' & _ & ? & _).
  - split; [done|]. right. repeat split; try done.
    by intros (script' & ? & _).
Qed.

(** ** Pending tasks and their promises *)

Section Orphan.

Import Dispatcher.

(** A promise that was created, is not settled and is held by no pending
    task stays so under every action. *)
Lemma orphan_step (E : env) (a : action) (s : state) (p : nat) :
  (p < next_promise s)%nat →
  promises s !! p = None →
  (∀ id t, tasks s !! id = Some t → resolve t ≠ p) →
  (p < next_promise (step E a s))%nat
  ∧ promises (step E a s) !! p = None
  ∧ (∀ id t, tasks (step E a s) !! id = Some t → resolve t ≠ p).
Proof.
  intros Hlt Hnone Hfree.
  assert (Hsettle : ∀ q r s',
    q ≠ p → promises s' !! p = None → promises (settle q r s') !! p = None).
  { intros q r s' Hq Hs'. unfold settle. cbn.
    destruct (promises s' !! q); [done|]. by rewrite lookup_insert_ne. }
  destruct a as [c | m | err | code]; cbn [step].
  - unfold decryptDatabaseAsync. cbn [new_promise].
    set (s0 := State _ _ _ _ _ _ _ _ _ _).
    destruct (restart_keeps E s0) as (Ht & Hp & Hn & _).
    cbn in Ht, Hp, Hn.
    destruct (worker (restart_if_down E s0)); cbn [snd].
    + cbn. rewrite Ht, Hp, Hn. split; [lia|]. split; [done|].
      intros id t. rewrite lookup_insert. case_decide.
      * intros [= <-]. cbn. lia.
      * apply Hfree.
    + split; [|split].
      * cbn. rewrite Hn. lia.
      * apply Hsettle; [lia | by rewrite Hp].
      * cbn. rewrite Ht. exact Hfree.
  - unfold handleWorkerMessage.
    destruct m as [| id i o k | id cur tot | id | [id|] e]; cbn; try done.
    + by destruct (tasks s !! id).
    + destruct (tasks s !! id) as [t|]; [|done]. cbn.
      by destruct (onProgress t).
    + destruct (tasks s !! id) as [t|] eqn:Hl; [|done]. cbn.
      split; [done|]. split; [apply Hsettle; [by eapply Hfree | done]|].
      intros id' t'. rewrite lookup_delete. case_decide; [done | apply Hfree].
    + destruct (tasks s !! id) as [t|] eqn:Hl; [|done]. cbn.
      split; [done|]. split; [apply Hsettle; [by eapply Hfree | done]|].
      intros id' t'. rewrite lookup_delete. case_decide; [done | apply Hfree].
  - done.
  - unfold on_exit. by destruct (code =? 0).
Qed.

Lemma orphan_run (steps : list (env * action)) : ∀ (s : state) (p : nat),
  (p < next_promise s)%nat →
  promises s !! p = None →
  (∀ id t, tasks s !! id = Some t → resolve t ≠ p) →
  promises (Service.run_in steps s) !! p = None.
Proof.
  induction steps as [|[E a] steps IH]; intros s p Hlt Hnone Hfree; [done|].
  change (Service.run_in ((E, a) :: steps) s)
    with (Service.run_in steps (step E a s)).
  destruct (orphan_step E a s p Hlt Hnone Hfree) as (? & ? & ?).
  by apply IH.
Qed.

End Orphan.

(** X10.  Results are correlated by id alone.  In every state the service
    can reach, a [success] or [error] message for a pending id leaves the
    tasks under every other id in the table with their promises unsettled.
    But when a call draws the id of a task that is still pending, the
    table holds the new call's promise under that id from then on: the
    worker's next [success] or [error] for the id settles the promise of
    the new call, and the promise of the earlier call is settled by no
    later message, call or event. *)
Theorem results_are_correlated_by_id_alone :
  ∀ (s : Dispatcher.state) (id : jsstring) (t : Dispatcher.DecryptTask),
    Dispatcher.reachable s →
    Dispatcher.tasks s !! id = Some t →
    (∀ id' t' m,
       Dispatcher.tasks s !! id' = Some t' →
       id ≠ id' →
       m = Success id ∨ (∃ e, m = Error (Some id) e) →
       Dispatcher.tasks (Dispatcher.handleWorkerMessage m s) !! id' = Some t'
       ∧ Dispatcher.promises (Dispatcher.handleWorkerMessage m s)
           !! Dispatcher.resolve t' = None)
    ∧ (∀ E c w,
         Dispatcher.worker s = Some w →
         Dispatcher.generateId (Dispatcher.random36 c) = id →
         let r := Dispatcher.decryptDatabaseAsync E c s in
         r.1 ≠ Dispatcher.resolve t
         ∧ Dispatcher.tasks r.2 !! id
             = Some (Dispatcher.Task r.1 (Dispatcher.progress c))
         ∧ Dispatcher.promises
             (Dispatcher.handleWorkerMessage (Success id) r.2) !! r.1
             = Some (Dispatcher.Result true None)
         ∧ (∀ e,
              Dispatcher.promises
                (Dispatcher.handleWorkerMessage (Error (Some id) e) r.2) !! r.1
              = Some (Dispatcher.Result false (Some e)))
         ∧ ∀ steps,
             Dispatcher.promises (Service.run_in steps r.2)
               !! Dispatcher.resolve t = None).
Proof.
  intros s id t Hs Hl.
  apply reachable_consistent in Hs as (H1 & H2 & H3).
  destruct (H1 _ _ Hl) as [Hlt Hnone].
  split.
  - intros id' t' m Hl' Hne Hm.
    destruct (H1 _ _ Hl') as [_ Hnone'].
    assert (Dispatcher.resolve t ≠ Dispatcher.resolve t') as Hdiff.
    { intros Heq. apply Hne. by apply (H3 _ _ _ _ Hl Hl'). }
    destruct Hm as [-> | [e ->]];
      unfold Dispatcher.handleWorkerMessage, Dispatcher.settle; cbn;
      rewrite Hl; cbn; rewrite Hnone;
      (split; [by rewrite lookup_delete_ne | by rewrite lookup_insert_ne]).
  - intros E c w Hw Hid r.
    assert (Hfresh : Dispatcher.promises s !! Dispatcher.next_promise s = None).
    { destruct (Dispatcher.promises s !! Dispatcher.next_promise s) eqn:Hp;
        [|done].
      assert (Dispatcher.next_promise s < Dispatcher.next_promise s)%nat
        by (apply H2; eauto). lia. }
    assert (Hr : r = (Dispatcher.next_promise s,
      Dispatcher.State (Some w) (Dispatcher.dllPath s)
        (Dispatcher.initialized s) (Dispatcher.initError s)
        (<[id := Dispatcher.Task (Dispatcher.next_promise s)
                   (Dispatcher.progress c)]> (Dispatcher.tasks s))
        (Dispatcher.promises s) (Dispatcher.progress_calls s)
        (Dispatcher.sent s ++
           [(w, Decrypt id (Dispatcher.inputPath c) (Dispatcher.outputPath c)
                  (Dispatcher.hexKey c))])
        (Dispatcher.spawned s) (S (Dispatcher.next_promise s)))).
    { unfold r, Dispatcher.decryptDatabaseAsync, Dispatcher.restart_if_down.
      cbn. rewrite Hw. cbn. by rewrite Hid. }
    clearbody r. subst r. cbn [fst snd].
    split; [lia|]. split; [apply lookup_insert_eq|]. split; [|split].
    + unfold Dispatcher.handleWorkerMessage, Dispatcher.settle. cbn.
      rewrite lookup_insert_eq. cbn. rewrite Hfresh. apply lookup_insert_eq.
    + intros e. unfold Dispatcher.handleWorkerMessage, Dispatcher.settle. cbn.
      rewrite lookup_insert_eq. cbn. rewrite Hfresh. apply lookup_insert_eq.
    + intros steps. apply orphan_run; cbn.
      * lia.
      * exact Hnone.
      * intros id' t'. rewrite lookup_insert. case_decide.
        -- intros [= <-]. cbn. lia.
        -- intros Hl' Heq. apply H. symmetry. by apply (H3 _ _ _ _ Hl' Hl).
Qed.

Lemma results_are_correlated_by_id_alone_witness :
  (Dispatcher.tasks
     (Dispatcher.handleWorkerMessage (Success Examples.id)
        MoreExamples.two_pending) !! Js.lit "p7q"
   = Some (Dispatcher.Task 1 (Some 0%nat))
   ∧ Dispatcher.promises
       (Dispatcher.handleWorkerMessage (Success Examples.id)
          MoreExamples.two_pending) !! 1%nat
     = None)
  ∧ Dispatcher.promises
      (Dispatcher.handleWorkerMessage (Success Examples.id)
         (Dispatcher.decryptDatabaseAsync Examples.app_env Examples.a_call
            Examples.one_pending).2) !! 1%nat
    = Some (Dispatcher.Result true None)
  ∧ Dispatcher.promises
      (Service.run_in
         [(Examples.app_env, Dispatcher.WorkerMessage (Success Examples.id));
          (Examples.app_env, Dispatcher.WorkerMessage (Success Examples.id))]
         (Dispatcher.decryptDatabaseAsync Examples.app_env Examples.a_call
            Examples.one_pending).2) !! 0%nat
    = None.
Proof.
  split.
  - apply (proj1 (results_are_correlated_by_id_alone MoreExamples.two_pending
                    Examples.id (Dispatcher.Task 0 None)
                    (Dispatcher.reach_step _ _ _
                       (Dispatcher.reach_step _ _ _
                          (Dispatcher.reach_construct _)))
                    eq_refl)
             (Js.lit "p7q") (Dispatcher.Task 1 (Some 0%nat))
             (Success Examples.id)).
    + reflexivity.
    + discriminate.
    + by left.
  - destruct (proj2 (results_are_correlated_by_id_alone Examples.one_pending
                       Examples.id (Dispatcher.Task 0 None)
                       (Dispatcher.reach_step _ _ _
                          (Dispatcher.reach_construct _))
                       eq_refl)
                Examples.app_env Examples.a_call 0%nat eq_refl eq_refl)
      as (_ & _ & Hlater & _ & Hearlier).
    split; [exact Hlater|].
    exact (Hearlier
      [(Examples.app_env, Dispatcher.WorkerMessage (Success Examples.id));
       (Examples.app_env, Dispatcher.WorkerMessage (Success Examples.id))]).
Defined.

(** ** [Map]: more of its laws *)

Section MapMore.

Context {K V : Type} `{EqDecision K}.
Implicit Types (m : list (K * V)) (k : K) (v : V).

Lemma map_get_set k' k v m :
  Lru.map_get k' (Lru.map_set k v m) =
    if decide (k' = k) then Some v else Lru.map_get k' m.
Proof.
  induction m as [|[k0 v0] m IH]; cbn.
  - destruct (decide (k = k')), (decide (k' = k)); congruence.
  - destruct (decide (k0 = k)) as [->|Hne]; cbn.
    + destruct (decide (k = k')), (decide (k' = k)); congruence.
    + destruct (decide (k0 = k')) as [->|Hne'].
      * destruct (decide (k' = k)); congruence.
      * exact IH.
Qed.

Lemma map_get_absent k m : k ∉ m.*1 → Lru.map_get k m = None.
Proof.
  induction m as [|[k0 v0] m IH]; cbn; [done|].
  rewrite not_elem_of_cons. intros [Hne Hk].
  destruct (decide (k0 = k)); [congruence | by apply IH].
Qed.

Lemma map_get_delete k' k m :
  Lru.map_get k' (Lru.map_delete k m) =
    if decide (k' = k) then None else Lru.map_get k' m.
Proof.
  induction m as [|[k0 v0] m IH]; cbn.
  - by destruct (decide (k' = k)).
  - destruct (decide (k0 = k)) as [->|Hne]; cbn.
    + rewrite IH. destruct (decide (k' = k)) as [->|Hne']; [done|].
      destruct (decide (k = k')); congruence.
    + destruct (decide (k0 = k')) as [->|Hne'].
      * destruct (decide (k' = k)); congruence.
      * exact IH.
Qed.

Lemma elem_of_map_set k' k v m :
  k' ∈ (Lru.map_set k v m).*1 ↔ k' = k ∨ k' ∈ m.*1.
Proof.
  induction m as [|[k0 v0] m IH]; cbn.
  - rewrite list_elem_of_singleton, elem_of_nil. tauto.
  - destruct (decide (k0 = k)) as [->|Hne]; cbn.
    + rewrite !elem_of_cons. tauto.
    + rewrite !elem_of_cons, IH. tauto.
Qed.

Lemma map_set_NoDup k v m : NoDup m.*1 → NoDup (Lru.map_set k v m).*1.
Proof.
  induction m as [|[k0 v0] m IH]; cbn.
  - intros _. apply NoDup_singleton.
  - intros [Hk0 Hnd]%NoDup_cons.
    destruct (decide (k0 = k)) as [->|Hne]; cbn.
    + by apply NoDup_cons.
    + apply NoDup_cons. split; [|by apply IH].
      rewrite elem_of_map_set. intros [? | ?]; congruence.
Qed.

End MapMore.

(** ** The chat store *)

Section StoreProps.

Context {ChatSession Message Contact number : Type}.
Variable toString : number → jsstring.
Variables serverId localId createTime sortSeq : Message → number.
Variable username : Contact → jsstring.

Local Abbreviation state := (@Store.ChatState ChatSession Message Contact).
Local Abbreviation key :=
  (Store.message_key toString serverId localId createTime sortSeq).
Local Abbreviation unique :=
  (Store.uniqueNewMessages toString serverId localId createTime sortSeq).
Local Abbreviation append :=
  (Store.appendMessages toString serverId localId createTime sortSeq).
Local Abbreviation run :=
  (Store.run toString serverId localId createTime sortSeq username).

Lemma elem_of_unique (m : Message) (ms : list Message) (s : state) :
  m ∈ unique ms s ↔ m ∈ ms ∧ key m ∉ key <$> Store.messages s.
Proof. unfold Store.uniqueNewMessages. rewrite list_elem_of_filter. tauto. Qed.

(** The messages after [appendMessages], whether or not anything was
    added. *)
Lemma append_messages (ms : list Message) (prepend : bool) (s : state) :
  Store.messages (append ms prepend s) =
    if prepend then unique ms s ++ Store.messages s
    else Store.messages s ++ unique ms s.
Proof.
  unfold Store.appendMessages.
  destruct (unique ms s) as [|m u] eqn:Hu.
  - destruct prepend; [done | by rewrite app_nil_r].
  - by destruct prepend.
Qed.

Lemma append_keys (ms : list Message) (prepend : bool) (s : state) (k : jsstring) :
  k ∈ key <$> Store.messages (append ms prepend s)
  ↔ k ∈ key <$> Store.messages s ∨ k ∈ key <$> unique ms s.
Proof.
  rewrite append_messages. destruct prepend; rewrite fmap_app, elem_of_app; tauto.
Qed.

(** X11.  After [appendMessages] the key of every message of the batch is
    in the store, every message that was in the store is still there, and
    appending the same batch again changes nothing. *)
Theorem appendMessages_idempotent :
  ∀ (ms : list Message) (prepend : bool) (s : state),
    (∀ m, m ∈ ms → key m ∈ key <$> Store.messages (append ms prepend s))
    ∧ (∀ m, m ∈ Store.messages s → m ∈ Store.messages (append ms prepend s))
    ∧ append ms prepend (append ms prepend s) = append ms prepend s.
Proof.
  intros ms prepend s.
  assert (Hall : ∀ m, m ∈ ms →
            key m ∈ key <$> Store.messages (append ms prepend s)).
  { intros m Hm. rewrite append_keys.
    destruct (decide (key m ∈ key <$> Store.messages s)) as [|Hnew];
      [by left | right].
    apply list_elem_of_fmap_2. by apply elem_of_unique. }
  split; [exact Hall|]. split.
  - intros m Hm. rewrite append_messages.
    destruct prepend; rewrite elem_of_app; tauto.
  - assert (unique ms (append ms prepend s) = []) as Hnone.
    { apply elem_of_nil_inv. intros m [Hm Hnew]%elem_of_unique.
      by apply Hnew, Hall. }
    unfold Store.appendMessages at 1. by rewrite Hnone.
Qed.

(** X12.  [appendMessages] changes only the list of messages: the old list
    is kept in its order, and what is added, before it or after it, are
    the messages of the batch whose key is not in the store, each as often
    as the batch holds it and in the order of the batch.  Duplicates
    inside a batch are not removed: the keys in the store are distinct
    afterwards exactly when they were distinct before and no new key
    occurs twice in the batch. *)
Theorem appendMessages_adds_new_keys_only :
  ∀ (ms : list Message) (prepend : bool) (s : state),
    append ms prepend s
      = Store.with_messages
          (if prepend
           then filter (λ m, key m ∉ key <$> Store.messages s) ms
                ++ Store.messages s
           else Store.messages s
                ++ filter (λ m, key m ∉ key <$> Store.messages s) ms) s
    ∧ (NoDup (key <$> Store.messages (append ms prepend s))
       ↔ NoDup (key <$> Store.messages s)
         ∧ NoDup (key <$> filter (λ m, key m ∉ key <$> Store.messages s) ms))
    ∧ (∀ i j m m',
         i ≠ j → ms !! i = Some m → ms !! j = Some m' → key m = key m' →
         key m ∉ key <$> Store.messages s →
         ¬ NoDup (key <$> Store.messages (append ms prepend s))).
Proof.
  intros ms prepend s.
  assert (Hdisj : ∀ k, k ∈ key <$> unique ms s →
                       k ∉ key <$> Store.messages s).
  { intros k (m & -> & [_ Hnew]%elem_of_unique)%list_elem_of_fmap. done. }
  assert (Hiff : NoDup (key <$> Store.messages (append ms prepend s))
       ↔ NoDup (key <$> Store.messages s) ∧ NoDup (key <$> unique ms s)).
  { rewrite append_messages.
    destruct prepend; rewrite fmap_app, NoDup_app.
    - split; [tauto|]. intros [? ?]. split; [done|]. split; [exact Hdisj|done].
    - split; [tauto|]. intros [? ?]. split; [done|]. split; [|done].
      intros k Hk Hk'. by apply (Hdisj k). }
  split; [|split].
  - unfold Store.appendMessages. fold (unique ms s).
    destruct (unique ms s) as [|m u] eqn:Hu; [|done].
    destruct s; destruct prepend; cbn; by rewrite ?app_nil_r.
  - exact Hiff.
  - intros i j m m' Hij Hi Hj Hk Hnew [_ Hnd]%Hiff.
    unfold Store.uniqueNewMessages in Hnd.
    clear Hiff Hdisj. revert i j Hij Hi Hj Hnd.
    induction ms as [|m0 ms IH]; intros i j Hij Hi Hj Hnd; [done|].
    rewrite filter_cons in Hnd.
    assert (Hin : ∀ n x, ms !! n = Some x → key x = key m →
              key m ∈ key <$> filter (λ m, key m ∉ key <$> Store.messages s) ms).
    { intros n x Hx Hkx. rewrite <- Hkx. apply list_elem_of_fmap_2.
      apply list_elem_of_filter. split; [by rewrite Hkx|].
      by eapply list_elem_of_lookup_2. }
    destruct i as [|i], j as [|j]; cbn in Hi, Hj.
    + done.
    + injection Hi as ->. rewrite decide_True in Hnd by done.
      rewrite fmap_cons in Hnd. apply NoDup_cons in Hnd as [Hnd _].
      apply Hnd. by apply (Hin j m').
    + injection Hj as ->. rewrite decide_True in Hnd by (by rewrite <- Hk).
      rewrite fmap_cons in Hnd. apply NoDup_cons in Hnd as [Hnd _].
      apply Hnd. rewrite <- Hk. by apply (Hin i m).
    + apply (IH i j); [congruence | done | done |].
      case_decide; [|done].
      rewrite fmap_cons in Hnd. by apply NoDup_cons in Hnd as [_ Hnd].
Qed.

(** X14.  [syncVersion] counts the calls of [incrementSyncVersion]: after
    any sequence of actions from the first state it is their number, and
    [reset] gives every other field its first value but leaves the
    count. *)
Theorem syncVersion_counts_increments :
  ∀ (acts : list (@Store.action ChatSession Message Contact)) (s : state),
    Store.syncVersion (run acts s)
      = Store.syncVersion s + Z.of_nat (Store.increments acts)
    ∧ Store.reset (run acts Store.initial)
        = Store.State false false None [] [] None false [] false false true
            [] [] (Z.of_nat (Store.increments acts)).
Proof.
  assert (Hcount : ∀ (acts : list (@Store.action ChatSession Message Contact))
                     (s : state),
    Store.syncVersion (run acts s)
      = Store.syncVersion s + Z.of_nat (Store.increments acts)).
  { induction acts as [|a acts IH]; intros s.
    - cbn. lia.
    - change (run (a :: acts) s)
        with (run acts (Store.dispatch toString serverId localId createTime
                          sortSeq username s a)).
      rewrite IH. unfold Store.increments. rewrite filter_cons.
      destruct a; cbn [Store.is_increment];
        try (rewrite decide_False by done);
        try (rewrite decide_True by done); cbn [Store.dispatch length];
        try reflexivity.
      all: try (unfold Store.appendMessages;
                by destruct (Store.uniqueNewMessages _ _ _ _ _ _ _)).
      all: cbn; lia. }
  intros acts s. split; [apply Hcount|].
  unfold Store.reset. by rewrite Hcount.
Qed.

End StoreProps.

Lemma appendMessages_adds_new_keys_only_witness :
  ¬ NoDup
      (Store.message_key Js.of_Z MoreExamples.quad_serverId
         MoreExamples.quad_localId MoreExamples.quad_createTime
         MoreExamples.quad_sortSeq
       <$> Store.messages
             (Store.appendMessages (ChatSession := unit) (Contact := unit)
                Js.of_Z MoreExamples.quad_serverId MoreExamples.quad_localId
                MoreExamples.quad_createTime MoreExamples.quad_sortSeq
                [(7, 1, 1700000000, 1); (7, 1, 1700000000, 1)] false
                Store.initial)).
Proof.
  apply (proj2 (proj2 (appendMessages_adds_new_keys_only
           (ChatSession := unit) (Contact := unit)
           Js.of_Z MoreExamples.quad_serverId MoreExamples.quad_localId
           MoreExamples.quad_createTime MoreExamples.quad_sortSeq
           [(7, 1, 1700000000, 1); (7, 1, 1700000000, 1)] false
           Store.initial))
         0%nat 1%nat (7, 1, 1700000000, 1) (7, 1, 1700000000, 1)).
  - discriminate.
  - reflexivity.
  - reflexivity.
  - reflexivity.
  - intros Hin. by apply elem_of_nil in Hin.
Defined.

(** A batch that holds the same message twice is added twice: only the
    messages already in the store are filtered out. *)
Example appendMessages_keeps_duplicates_of_the_batch :
  Store.messages
    (Store.appendMessages (ChatSession := unit) (Contact := unit)
       Js.of_Z MoreExamples.quad_serverId MoreExamples.quad_localId
       MoreExamples.quad_createTime MoreExamples.quad_sortSeq
       [(7, 1, 1700000000, 1); (7, 1, 1700000000, 1)] false Store.initial)
  = [(7, 1, 1700000000, 1); (7, 1, 1700000000, 1)].
Proof. vm_compute. reflexivity. Qed.

Section Contacts.

Context {ChatSession Message Contact number : Type}.
Variable toString : number → jsstring.
Variables serverId localId createTime sortSeq : Message → number.
Variable username : Contact → jsstring.

Local Abbreviation state := (@Store.ChatState ChatSession Message Contact).
Local Abbreviation run :=
  (Store.run toString serverId localId createTime sortSeq username).
Local Abbreviation set_entry :=
  (λ (m : list (jsstring * Contact)) (e : jsstring * Contact),
     Lru.map_set e.1 e.2 m).

Lemma entries_NoDup (entries : list (jsstring * Contact)) : ∀ acc,
  NoDup acc.*1 → NoDup (foldl set_entry acc entries).*1.
Proof.
  induction entries as [|e entries IH]; intros acc Hacc; [done|].
  cbn [foldl]. apply IH. by apply map_set_NoDup.
Qed.

Lemma entries_copy (entries : list (jsstring * Contact)) : ∀ acc,
  NoDup (acc ++ entries).*1 → foldl set_entry acc entries = acc ++ entries.
Proof.
  induction entries as [|[k v] entries IH]; intros acc Hnd.
  - by rewrite app_nil_r.
  - cbn [foldl fst snd].
    assert (k ∉ acc.*1) as Hk.
    { rewrite fmap_app in Hnd. apply NoDup_app in Hnd as (_ & Hdisj & _).
      intros Hin. apply (Hdisj k Hin). cbn. apply list_elem_of_here. }
    rewrite map_set_absent by done.
    rewrite IH; [by rewrite <- app_assoc|].
    by rewrite <- app_assoc.
Qed.

Lemma contacts_lookup (cs : list Contact) (u : jsstring) : ∀ acc,
  Lru.map_get u (foldl set_entry acc ((λ c, (username c, c)) <$> cs)) =
    match last (filter (λ c, username c = u) cs) with
    | Some c => Some c
    | None => Lru.map_get u acc
    end.
Proof.
  induction cs as [|c cs IH]; intros acc; [done|].
  rewrite fmap_cons. cbn [foldl fst snd]. rewrite IH, filter_cons.
  case_decide as Hc.
  - rewrite last_cons. destruct (last (filter _ cs)); [done|].
    rewrite map_get_set. by rewrite decide_True.
  - destruct (last (filter _ cs)); [done|].
    rewrite map_get_set. rewrite decide_False; [done | congruence].
Qed.

(** X15.  After [setContacts] the store holds, for every user name, the
    last contact of the list with that name, and none for a name that no
    contact of the list has; each name occurs once among its keys. *)
Theorem setContacts_last_contact_wins :
  ∀ (cs : list Contact) (s : state) (u : jsstring),
    Lru.map_get u (Store.contacts (Store.setContacts username cs s))
      = last (filter (λ c, username c = u) cs)
    ∧ NoDup (Store.contacts (Store.setContacts username cs s)).*1.
Proof.
  intros cs s u. unfold Store.setContacts, Store.Map_of. cbn. split.
  - rewrite contacts_lookup. by destruct (last _).
  - apply entries_NoDup. constructor.
Qed.

Lemma run_contacts_NoDup (acts : list (@Store.action ChatSession Message Contact)) :
  ∀ s : state, NoDup (Store.contacts s).*1 → NoDup (Store.contacts (run acts s)).*1.
Proof.
  induction acts as [|a acts IH]; intros s Hs; [done|].
  change (run (a :: acts) s)
    with (run acts (Store.dispatch toString serverId localId createTime
                      sortSeq username s a)).
  apply IH. destruct a; cbn [Store.dispatch]; try exact Hs.
  - unfold Store.appendMessages.
    by destruct (Store.uniqueNewMessages _ _ _ _ _ _ _).
  - apply entries_NoDup. constructor.
  - cbn. apply map_set_NoDup, entries_NoDup. constructor.
  - constructor.
Qed.

(** X16.  In every state the store reaches from its first state, each
    user name occurs once among the contacts, and [addContact] replaces
    the contact of that name where it stands or adds it at the end: the
    new contact is found under its name, and every other name finds what
    it found before. *)
Theorem addContact_upserts :
  ∀ (acts : list (@Store.action ChatSession Message Contact)) (c : Contact)
    (u : jsstring),
    let s := run acts Store.initial in
    NoDup (Store.contacts s).*1
    ∧ Store.contacts (Store.addContact username c s)
        = Lru.map_set (username c) c (Store.contacts s)
    ∧ Lru.map_get u (Store.contacts (Store.addContact username c s))
        = if decide (u = username c) then Some c
          else Lru.map_get u (Store.contacts s).
Proof.
  intros acts c u s.
  assert (Hnd : NoDup (Store.contacts s).*1)
    by (apply run_contacts_NoDup; constructor).
  assert (Hcopy : Store.Map_of (Store.contacts s) = Store.contacts s)
    by (apply (entries_copy _ []); exact Hnd).
  split; [exact Hnd|]. unfold Store.addContact. cbn. rewrite Hcopy.
  split; [done | apply map_get_set].
Qed.

End Contacts.

(** ** Decimal numbers and the key of a message *)

Section Decimal.

Local Open Scope N_scope.

(** The number that a string of decimal digits writes. *)
Local Abbreviation value :=
  (foldl (λ (a : N) (d : N), a * 10 + (d - 48)) 0).
Local Abbreviation digit := (λ d : N, 48 ≤ d ≤ 57).

Lemma digits_S (fuel : nat) (n : N) (acc : jsstring) :
  Js.digits (S fuel) n acc =
    if n <? 10 then (48 + n mod 10) :: acc
    else Js.digits fuel (n / 10) ((48 + n mod 10) :: acc).
Proof. reflexivity. Qed.

Lemma digits_spec (f : nat) : ∀ (n : N) (acc : jsstring),
  n < 2 ^ N.of_nat (S f) →
  ∃ ds, Js.digits (S f) n acc = ds ++ acc
        ∧ ds ≠ [] ∧ Forall digit ds ∧ value ds = n.
Proof.
  induction f as [|f IH]; intros n acc Hn.
  - exists [48 + n mod 10]. rewrite digits_S.
    assert (n < 10) as Hlt by (cbn in Hn; lia).
    apply N.ltb_lt in Hlt as Hb. rewrite Hb.
    split; [done|]. split; [done|].
    rewrite N.mod_small by done. split; [|cbn; lia].
    constructor; [lia | constructor].
  - rewrite digits_S. destruct (n <? 10) eqn:Hb.
    + apply N.ltb_lt in Hb. exists [48 + n mod 10].
      split; [done|]. split; [done|].
      rewrite N.mod_small by done. split; [|cbn; lia].
      constructor; [lia | constructor].
    + apply N.ltb_ge in Hb.
      destruct (IH (n / 10) ((48 + n mod 10) :: acc)) as (ds & Hds & _ & Hall & Hval).
      { apply N.Div0.div_lt_upper_bound.
        rewrite Nat2N.inj_succ, N.pow_succ_r' in Hn. lia. }
      exists (ds ++ [48 + n mod 10]).
      split; [by rewrite Hds, <- app_assoc|].
      split; [by destruct ds|]. split.
      * apply Forall_app. split; [done|].
        pose proof (N.mod_upper_bound n 10 ltac:(lia)).
        constructor; [|constructor].
        cbv beta. revert H. generalize (n mod 10). intros r Hr. lia.
      * rewrite foldl_app. cbn [foldl]. rewrite Hval.
        pose proof (N.div_mod n 10 ltac:(lia)) as Hdm. revert Hdm.
        generalize (n mod 10), (n / 10). clear. intros r q Hdm. lia.
Qed.

Lemma of_N_spec (n : N) :
  Js.of_N n ≠ [] ∧ Forall digit (Js.of_N n) ∧ value (Js.of_N n) = n.
Proof.
  unfold Js.of_N.
  destruct (digits_spec (N.to_nat (N.log2 n)) n []) as (ds & -> & ? & ? & ?).
  - rewrite Nat2N.inj_succ, N2Nat.id.
    destruct n as [|p]; [done|]. apply N.log2_spec. lia.
  - by rewrite app_nil_r.
Qed.

Lemma of_N_inj (n m : N) : Js.of_N n = Js.of_N m → n = m.
Proof.
  intros Heq. destruct (of_N_spec n) as (_ & _ & <-).
  destruct (of_N_spec m) as (_ & _ & <-). by rewrite Heq.
Qed.

(** Two digit strings that are each followed by a hyphen and start the
    same string are the same. *)
Lemma digits_then_hyphen (ds ds' r r' : jsstring) :
  Forall digit ds → Forall digit ds' →
  ds ++ 45 :: r = ds' ++ 45 :: r' → ds = ds' ∧ r = r'.
Proof.
  intros Hds. revert ds'.
  induction Hds as [|d ds Hd _ IH]; intros [|d' ds'] Hds' Heq.
  - by injection Heq.
  - injection Heq as <- _. apply Forall_cons in Hds' as [? _]. lia.
  - injection Heq as -> _. lia.
  - injection Heq as <- Heq. apply Forall_cons in Hds' as [_ Hds'].
    destruct (IH _ Hds' Heq) as [-> ->]. done.
Qed.

End Decimal.

Lemma of_Z_shape (z : Z) :
  ∃ sign ds, Js.of_Z z = sign ++ ds
             ∧ (sign = [] ∧ 0 ≤ z ∨ sign = [45%N] ∧ z < 0)
             ∧ ds = Js.of_N (Z.abs_N z).
Proof.
  destruct z as [|p|p]; cbn.
  - exists [], (Js.of_N 0). split; [done|]. split; [left; split; [done | lia] | done].
  - exists [], (Js.of_N (N.pos p)). split; [done|]. split; [left; split; [done | lia] | done].
  - exists [45%N], (Js.of_N (N.pos p)). split; [done|]. split; [right; split; [done | lia] | done].
Qed.

(** A number, a hyphen and whatever follows: the number and what follows
    can be read back. *)
Lemma of_Z_then_hyphen (a b : Z) (r r' : jsstring) :
  Js.of_Z a ++ 45%N :: r = Js.of_Z b ++ 45%N :: r' → a = b ∧ r = r'.
Proof.
  destruct (of_Z_shape a) as (sa & da & -> & Hsa & ->).
  destruct (of_Z_shape b) as (sb & db & -> & Hsb & ->).
  destruct (of_N_spec (Z.abs_N a)) as (Hna & Hda & _).
  destruct (of_N_spec (Z.abs_N b)) as (Hnb & Hdb & _).
  assert (Hsame : ∀ x y : Z,
    Js.of_N (Z.abs_N x) ++ 45%N :: r = Js.of_N (Z.abs_N y) ++ 45%N :: r' →
    Z.abs_N x = Z.abs_N y ∧ r = r').
  { intros x y Heq.
    destruct (of_N_spec (Z.abs_N x)) as (_ & Hx & _).
    destruct (of_N_spec (Z.abs_N y)) as (_ & Hy & _).
    destruct (digits_then_hyphen _ _ _ _ Hx Hy Heq) as [Hd ->].
    split; [by apply of_N_inj | done]. }
  destruct Hsa as [[-> Ha] | [-> Ha]], Hsb as [[-> Hb] | [-> Hb]]; cbn [app].
  - intros Heq. destruct (Hsame a b Heq) as [Habs ->]. split; [lia | done].
  - destruct (Js.of_N (Z.abs_N a)) as [|d ds]; [done|]. cbn [app].
    intros [= -> _]. apply Forall_cons in Hda as [? _]. lia.
  - destruct (Js.of_N (Z.abs_N b)) as [|d ds]; [done|]. cbn [app].
    intros [= <- _]. apply Forall_cons in Hdb as [? _]. lia.
  - intros [= Heq]. destruct (Hsame a b Heq) as [Habs ->]. split; [lia | done].
Qed.

Lemma of_Z_inj (a b : Z) : Js.of_Z a = Js.of_Z b → a = b.
Proof.
  intros Heq.
  destruct (of_Z_then_hyphen a b [] []) as [-> _]; [by rewrite Heq | done].
Qed.

(** X13.  For two messages whose [serverId], [localId], [createTime] and
    [sortSeq] are all safe integers, which a template literal prints in
    plain decimal, the keys are the same exactly when the four integers
    are: the hyphens and minus signs of the key never make two different
    quadruples of such integers look alike.  Nothing is said of other
    numbers. *)
Theorem message_key_identifies_safe_integers :
  ∀ {Message number : Type} (toString : number → jsstring)
    (serverId localId createTime sortSeq : Message → number)
    (integer : number → option Z),
    (∀ x z, integer x = Some z → Js.isSafeInteger z = true →
            toString x = Js.of_Z z) →
    ∀ (m m' : Message) (a b c d a' b' c' d' : Z),
      integer <$> [serverId m; localId m; createTime m; sortSeq m]
        = Some <$> [a; b; c; d] →
      integer <$> [serverId m'; localId m'; createTime m'; sortSeq m']
        = Some <$> [a'; b'; c'; d'] →
      forallb Js.isSafeInteger [a; b; c; d; a'; b'; c'; d'] = true →
      Store.message_key toString serverId localId createTime sortSeq m
        = Store.message_key toString serverId localId createTime sortSeq m'
      ↔ a = a' ∧ b = b' ∧ c = c' ∧ d = d'.
Proof.
  intros Message number toString serverId localId createTime sortSeq integer
    Hprint m m' a b c d a' b' c' d' Hm Hm' Hsafe.
  injection Hm as Ha Hb Hc Hd. injection Hm' as Ha' Hb' Hc' Hd'.
  cbn [forallb] in Hsafe.
  repeat (apply andb_true_iff in Hsafe as [? Hsafe]).
  unfold Store.message_key.
  rewrite (Hprint _ _ Ha), (Hprint _ _ Hb), (Hprint _ _ Hc), (Hprint _ _ Hd),
    (Hprint _ _ Ha'), (Hprint _ _ Hb'), (Hprint _ _ Hc'), (Hprint _ _ Hd')
    by done.
  split.
  - change (Js.lit "-") with [45%N]. cbn [app].
    intros Hk1. apply of_Z_then_hyphen in Hk1 as [? Hk2].
    apply of_Z_then_hyphen in Hk2 as [? Hk3].
    apply of_Z_then_hyphen in Hk3 as [? Hk4].
    apply of_Z_inj in Hk4. done.
  - by intros (-> & -> & -> & ->).
Qed.

Lemma message_key_identifies_safe_integers_witness :
  Store.message_key Js.of_Z MoreExamples.quad_serverId
    MoreExamples.quad_localId MoreExamples.quad_createTime
    MoreExamples.quad_sortSeq (7, -2, 1700000000, 0)
  = Store.message_key Js.of_Z MoreExamples.quad_serverId
      MoreExamples.quad_localId MoreExamples.quad_createTime
      MoreExamples.quad_sortSeq (7, 2, 1700000000, 0)
  ↔ 7 = 7 ∧ -2 = 2 ∧ 1700000000 = 1700000000 ∧ 0 = 0.
Proof.
  apply (message_key_identifies_safe_integers Js.of_Z
           MoreExamples.quad_serverId MoreExamples.quad_localId
           MoreExamples.quad_createTime MoreExamples.quad_sortSeq Some).
  - intros x z [= ->] _. reflexivity.
  - reflexivity.
  - reflexivity.
  - vm_compute. reflexivity.
Defined.

(** With safe integers, printed by [Js.of_Z]. *)
Example message_key_with_negative_numbers :
  Store.message_key Js.of_Z MoreExamples.quad_serverId
    MoreExamples.quad_localId MoreExamples.quad_createTime
    MoreExamples.quad_sortSeq (7, -2, 1700000000, 0)
  = Js.lit "7--2-1700000000-0".
Proof. reflexivity. Qed.

(** ** The LRU cache: reading, bounds for every finite capacity, survival *)

Section CacheMore.

Context {K V : Type} `{EqDecision K}.
Variable is_undefined : K → bool.
Implicit Types (c : @Lru.LRUCache K V) (m : list (K * V)).

(** After [set] the key is the last entry and occurs nowhere else. *)
Lemma set_puts_key_last key value c :
  ∃ m0, Lru.cache (Lru.set is_undefined key value c) = m0 ++ [(key, value)]
        ∧ (key ∉ m0.*1)
        ∧ (∀ k, k ∈ m0.*1 → k ∈ (Lru.cache c).*1).
Proof.
  unfold Lru.set, Lru.map_has. cbn [Lru.cache].
  case_bool_decide as Hin.
  - exists (Lru.map_delete key (Lru.cache c)).
    assert (key ∉ (Lru.map_delete key (Lru.cache c)).*1) as Hout
      by (rewrite elem_of_map_delete; tauto).
    split; [by apply map_set_absent|]. split; [done|].
    by intros k [? _]%elem_of_map_delete.
  - destruct (Qle_bool _ _).
    + destruct (Lru.first_key (Lru.cache c)) as [firstKey|].
      * destruct (negb (is_undefined firstKey)).
        -- exists (Lru.map_delete firstKey (Lru.cache c)).
           assert (key ∉ (Lru.map_delete firstKey (Lru.cache c)).*1) as Hout
             by (rewrite elem_of_map_delete; tauto).
           split; [by apply map_set_absent|]. split; [done|].
           by intros k [? _]%elem_of_map_delete.
        -- exists (Lru.cache c). split; [by apply map_set_absent | done].
      * exists (Lru.cache c). split; [by apply map_set_absent | done].
    + exists (Lru.cache c). split; [by apply map_set_absent | done].
Qed.

Lemma map_delete_last key value m :
  key ∉ m.*1 → Lru.map_delete key (m ++ [(key, value)]) = m.
Proof.
  induction m as [|[k0 v0] m IH]; cbn.
  - intros _. by rewrite decide_True.
  - rewrite not_elem_of_cons. intros [Hne Hk].
    rewrite decide_False by congruence. by rewrite IH.
Qed.

End CacheMore.

(** X17.  What was set is read back: right after [set(key, value)], on any
    cache of any capacity, [get(key)] answers [value] and leaves the cache
    as [set] left it. *)
Theorem get_after_set :
  ∀ {K V : Type} `{EqDecision K} (is_undefined : K → bool) (key : K)
    (value : V) (c : Lru.LRUCache),
    Lru.get key (Lru.set is_undefined key value c)
      = (Some value, Lru.set is_undefined key value c)
    ∧ Lru.has key (Lru.set is_undefined key value c) = true.
Proof.
  intros K V ? is_undefined key value c.
  destruct (set_puts_key_last is_undefined key value c) as (m0 & Hc & Hout & _).
  assert (Hin : key ∈ (Lru.cache (Lru.set is_undefined key value c)).*1).
  { rewrite Hc, fmap_app, elem_of_app. right. apply list_elem_of_here. }
  split.
  - unfold Lru.get, Lru.map_has. rewrite bool_decide_eq_true_2 by done.
    cbn [negb]. rewrite Hc.
    rewrite <- (map_set_absent key value m0) by done.
    rewrite map_get_set, decide_True by done.
    rewrite (map_set_absent key value m0) by done.
    rewrite map_delete_last by done.
    rewrite map_set_absent by done.
    destruct (Lru.set is_undefined key value c) as [cap m] eqn:Hset.
    cbn in Hc |- *. by rewrite Hc.
  - unfold Lru.has, Lru.map_has. by apply bool_decide_eq_true.
Qed.

(** X18.  [get] answers the value that the cache holds for the key, or
    [undefined] when it holds none, and it changes no binding: after it,
    every key is bound as it was before. *)
Theorem get_reads_without_changing_bindings :
  ∀ {K V : Type} `{EqDecision K} (key k : K) (c : @Lru.LRUCache K V),
    (Lru.get key c).1
      = (if Lru.has key c then Lru.map_get key (Lru.cache c) else None)
    ∧ (Lru.has key c = false → (Lru.get key c).2 = c)
    ∧ Lru.map_get k (Lru.cache (Lru.get key c).2) = Lru.map_get k (Lru.cache c)
    ∧ Lru.capacity (Lru.get key c).2 = Lru.capacity c.
Proof.
  intros K V ? key k c. unfold Lru.get, Lru.has, Lru.map_has.
  case_bool_decide as Hin; cbn [negb].
  - destruct (map_get_present key (Lru.cache c) Hin) as [value Hv].
    rewrite Hv. cbn. split; [done|]. split; [done|]. split; [|done].
    rewrite map_get_set, map_get_delete.
    destruct (decide (k = key)) as [->|]; [by rewrite Hv | done].
  - cbn. done.
Qed.

Lemma not_full_ceiling (q : Q) (len : nat) :
  Qle_bool q (inject_Z (Z.of_nat len)) = false →
  Z.of_nat len + 1 ≤ Qceiling q.
Proof.
  intros Hfull. apply not_true_iff_false in Hfull.
  rewrite Qle_bool_iff in Hfull. apply Qnot_le_lt in Hfull.
  pose proof (Qle_ceiling q) as Hceil.
  pose proof (Qlt_le_trans _ _ _ Hfull Hceil) as Hlt.
  rewrite <- Zlt_Qlt in Hlt. lia.
Qed.

Section AnyCapacity.

Context {K V : Type} `{EqDecision K}.
Variable is_undefined : K → bool.
Variable q : Q.

Local Abbreviation bounded c :=
  (Lru.capacity c = q
   ∧ NoDup (Lru.keys c)
   ∧ Forall (λ k, is_undefined k = false) (Lru.keys c)
   ∧ Z.of_nat (Lru.size c) ≤ Z.max 1 (Qceiling q)).

Lemma append_bounded key value (m : list (K * V)) :
  is_undefined key = false →
  key ∉ m.*1 →
  NoDup m.*1 →
  Forall (λ k, is_undefined k = false) m.*1 →
  Z.of_nat (S (length m)) ≤ Z.max 1 (Qceiling q) →
  bounded (Lru.Cache q (Lru.map_set key value m)).
Proof.
  intros Hdef Hkey Hnd Hall Hlen.
  unfold Lru.keys, Lru.size. cbn [Lru.capacity Lru.cache].
  rewrite map_set_absent by done. rewrite fmap_app. cbn [fmap list_fmap fst].
  split; [done|]. split; [|split].
  - apply NoDup_app. split; [done|]. split; [|apply NoDup_singleton].
    intros x Hx ->%list_elem_of_singleton. done.
  - apply Forall_app. split; [done|]. by apply Forall_singleton.
  - rewrite length_app. cbn [length]. lia.
Qed.

Lemma apply_bounded (o : @Lru.op K V) c :
  (∀ key value, o = Lru.Set_ key value → is_undefined key = false) →
  bounded c → bounded (Lru.apply is_undefined o c).
Proof.
  intros Hdef (Hcap & Hnd & Hall & Hlen).
  unfold Lru.keys, Lru.size in *.
  destruct o as [key | key value |]; cbn [Lru.apply].
  - unfold Lru.get, Lru.map_has.
    case_bool_decide as Hin; cbn [negb]; [|done].
    destruct (map_get_present key (Lru.cache c) Hin) as [value ->].
    cbn [snd]. rewrite Hcap. apply append_bounded.
    + rewrite Forall_forall in Hall. by apply Hall.
    + rewrite elem_of_map_delete. tauto.
    + by apply map_delete_NoDup.
    + by apply map_delete_Forall.
    + by rewrite map_delete_length.
  - specialize (Hdef key value eq_refl).
    unfold Lru.set, Lru.map_has. rewrite Hcap.
    case_bool_decide as Hin.
    + apply append_bounded; try done.
      * rewrite elem_of_map_delete. tauto.
      * by apply map_delete_NoDup.
      * by apply map_delete_Forall.
      * by rewrite map_delete_length.
    + destruct (Qle_bool _ _) eqn:Hfull.
      * destruct (Lru.cache c) as [|[k0 v0] m'] eqn:Hc.
        -- cbn [Lru.first_key fmap list_fmap head].
           apply append_bounded; try done. cbn. lia.
        -- cbn [Lru.first_key fmap list_fmap fst head].
           apply Forall_cons in Hall as Hk0. destruct Hk0 as [Hk0 _].
           cbn in Hk0. rewrite Hk0. cbn [negb].
           apply append_bounded; try done.
           ++ rewrite elem_of_map_delete. tauto.
           ++ by apply map_delete_NoDup.
           ++ by apply map_delete_Forall.
           ++ rewrite map_delete_length; [done | done | apply list_elem_of_here].
      * apply not_full_ceiling in Hfull.
        apply append_bounded; try done. lia.
  - cbn. repeat split; try done; try constructor. lia.
Qed.

End AnyCapacity.

(** X19.  For every finite capacity, also zero, negative or not an
    integer, after any sequence of [get], [set] and [clear] in which no
    [set] uses [undefined] as its key the cache holds at most
    max(1, ⌈capacity⌉) entries. *)
Theorem size_bounded_for_every_finite_capacity :
  ∀ {K V : Type} `{EqDecision K} (is_undefined : K → bool) (q : Q)
    (ops : list (@Lru.op K V)),
    Lru.defined_keys is_undefined ops →
    Z.of_nat (Lru.size (Lru.run is_undefined ops (Lru.new q)))
      ≤ Z.max 1 (Qceiling q).
Proof.
  intros K V ? is_undefined q ops Hdef.
  cut (Lru.capacity (Lru.run is_undefined ops (Lru.new q)) = q
       ∧ NoDup (Lru.keys (Lru.run is_undefined ops (Lru.new q)))
       ∧ Forall (λ k, is_undefined k = false)
           (Lru.keys (Lru.run is_undefined ops (Lru.new q)))
       ∧ Z.of_nat (Lru.size (Lru.run is_undefined ops (Lru.new q)))
           ≤ Z.max 1 (Qceiling q)); [tauto|].
  induction ops as [|o ops IH] using rev_ind.
  - cbn. repeat split; try done; try constructor. lia.
  - unfold Lru.run. rewrite foldl_snoc. apply apply_bounded.
    + intros key value ->. apply (Hdef key value).
      apply elem_of_app. right. apply list_elem_of_here.
    + apply IH. intros key value Hin. apply (Hdef key value).
      apply elem_of_app. by left.
Qed.

Lemma size_bounded_for_every_finite_capacity_witness :
  Z.of_nat
    (Lru.size
       (Lru.run Examples.number_key
          [Lru.Set_ 1%nat 10%nat; Lru.Set_ 2%nat 20%nat; Lru.Set_ 3%nat 30%nat;
           Lru.Set_ 4%nat 40%nat]
          (Lru.new (5 # 2))))
  ≤ 3.
Proof.
  apply (size_bounded_for_every_finite_capacity Examples.number_key (5 # 2)).
  intros key value _. reflexivity.
Defined.

(** A cache of capacity 0 keeps the entry that was set last. *)
Example capacity_zero_keeps_one_entry :
  Lru.keys
    (Lru.run Examples.number_key
       [Lru.Set_ 1%nat 10%nat; Lru.Set_ 2%nat 20%nat] (Lru.new 0))
  = [2%nat].
Proof. reflexivity. Qed.

(** X20.  The entry used last is the last in the cache's order: [set] puts
    its key there, and so does a [get] that finds its key.  In a cache of
    integer capacity at least 2 that entry survives the next [set],
    whatever key is set. *)
Theorem most_recent_entry_survives_next_set :
  ∀ {K V : Type} `{EqDecision K} (is_undefined : K → bool) (n : positive)
    (ops : list (@Lru.op K V)),
    (1 < n)%positive →
    Lru.defined_keys is_undefined ops →
    let c := Lru.run is_undefined ops (Lru.new (inject_Z (Zpos n))) in
    (∀ key value, last (Lru.keys (Lru.set is_undefined key value c)) = Some key)
    ∧ (∀ key, Lru.has key c = true →
              last (Lru.keys (Lru.get key c).2) = Some key)
    ∧ (∀ k key value,
         last (Lru.keys c) = Some k →
         Lru.has k (Lru.set is_undefined key value c) = true).
Proof.
  intros K V ? is_undefined n ops Hn Hdef c.
  destruct (run_invariant is_undefined n ops Hdef)
    as (Hcap & Hnd & Hall & Hlen & _).
  fold c in Hcap, Hnd, Hall, Hlen.
  split; [|split].
  - intros key value.
    destruct (set_puts_key_last is_undefined key value c) as (m0 & Hc & _).
    unfold Lru.keys. rewrite Hc, fmap_app. apply last_snoc.
  - intros key Hhas. unfold Lru.has, Lru.map_has in Hhas.
    apply bool_decide_eq_true in Hhas.
    unfold Lru.get, Lru.map_has. rewrite bool_decide_eq_true_2 by done.
    destruct (map_get_present key (Lru.cache c) Hhas) as [value ->].
    cbn [negb snd]. unfold Lru.keys. cbn [Lru.cache].
    rewrite map_set_absent by (rewrite elem_of_map_delete; tauto).
    rewrite fmap_app. apply last_snoc.
  - intros k key value Hlast.
    unfold Lru.keys, Lru.size in *.
    apply last_Some in Hlast as [l Hl].
    assert (Hk : k ∈ (Lru.cache c).*1)
      by (rewrite Hl, elem_of_app; right; apply list_elem_of_here).
    unfold Lru.has, Lru.map_has. apply bool_decide_eq_true.
    unfold Lru.set, Lru.map_has. cbn [Lru.cache].
    apply elem_of_map_set.
    destruct (decide (k = key)) as [->|Hne]; [by left | right].
    case_bool_decide as Hin.
    + rewrite elem_of_map_delete. by split.
    + rewrite Hcap. destruct (Qle_bool _ _) eqn:Hfull; [|done].
      apply full_iff in Hfull.
      destruct (Lru.cache c) as [|[k0 v0] m'] eqn:Hc; [done|].
      cbn [Lru.first_key fmap list_fmap fst head].
      apply Forall_cons in Hall as [Hk0 _]. cbn in Hk0. rewrite Hk0.
      cbn [negb]. rewrite elem_of_map_delete. split; [done|].
      intros ->. cbn [fmap list_fmap fst] in Hl, Hnd.
      destruct l as [|k1 l].
      * apply (f_equal length) in Hl. cbn in Hl, Hfull.
        rewrite length_fmap in Hl. lia.
      * injection Hl as <- Hl. apply NoDup_cons in Hnd as [Hout _].
        apply Hout. rewrite Hl, elem_of_app. right. apply list_elem_of_here.
Qed.

Lemma most_recent_entry_survives_next_set_witness :
  Lru.has 1%nat
    (Lru.set Examples.number_key 3%nat 30%nat
       (Lru.run Examples.number_key Examples.three_sets
          (Lru.new (inject_Z 2))))
  = true.
Proof.
  apply (proj2 (proj2 (most_recent_entry_survives_next_set
    Examples.number_key 2%positive Examples.three_sets
    ltac:(reflexivity) ltac:(intros key value _; reflexivity)))).
  reflexivity.
Defined.
